(** * latencyReducer: the signaling server and the web client

    A shallow embedding of [server/cpp/src/server.cpp] (with its header
    [server.h]) and of the signaling part of [webclient/client.js], and the
    properties of the relay specification settled against it.

    Layout:
    - [Json]       the JSON values that [boost::json] hands to the server,
                   the three accessors the server calls, and a reader for
                   JSON texts;
    - [Server]     [socket_t], [server_t], [server_t::log_participants],
                   [server_t::launch] and [client_worker], the last two as a
                   transition system with one program counter per worker
                   thread;
    - [WebClient]  [addRemoteCandidate] and [handleOffer], cut at their
                   [await]s;
    - the messages of the protocol and the executions used as examples;
    - the lemmas and theorems, one block per property C1 to C10.

    How the code is read:
    - [json::parse] is a parameter of the server ([parse]); the theorems
      hold for every parser, the examples run with [Json.parse];
    - worker threads interleave between transitions.  The body of
      [log_participants] is one transition (it holds the mutex), the test
      of [everybody()] in [client_worker] is another;
    - a stream lives as long as a [shared_ptr] to it does, in its worker or
      in a slot;
    - the server under study is [server_t], which [main] launches; the
      free function [launch(addr, port)] of the earlier echo server is
      modelled apart, in [Echo], and the earlier text of [client.js] (the
      one that never joins) is not modelled;
    - [Main] is [main.cpp], [Page] the part of [client.js] around the
      handlers: [start], [stop], the controls and the sockets. *)

From Stdlib Require Import Ascii String List Bool Arith ZArith Lia.
From stdpp Require Import base option list strings gmap.

Set Warnings "-register-all".
Local Open Scope string_scope.
Local Open Scope list_scope.

(** ** JSON values and the [boost::json] calls of the server *)

Module Json.

(** [boost::json::value].  A number keeps its lexeme: the server never
    looks at one, it only needs to know that it is neither an object nor a
    string. *)
Inductive value : Type :=
| Null
| Boolean (b : bool)
| Number (lexeme : string)
| Str (s : string)
| Array (items : list value)
| Object (members : list (string * value)).

(** [value::as_object()]: the object, or an exception on any other kind. *)
Definition as_object (v : value) : option (list (string * value)) :=
  match v with Object ms => Some ms | _ => None end.

(** [value::as_string()]: the string, or an exception on any other kind. *)
Definition as_string (v : value) : option string :=
  match v with Str s => Some s | _ => None end.

Fixpoint find (key : string) (ms : list (string * value)) : option value :=
  match ms with
  | [] => None
  | (k, v) :: ms' => if String.eqb k key then Some v else find key ms'
  end.

(** [object::operator[](key)]: the member stored under [key]; a missing key
    is inserted with a null value, which is what the caller then reads.  The
    object is a local of [log_participants], so the insertion itself is not
    observable. *)
Definition index (ms : list (string * value)) (key : string) : value :=
  default Null (find key ms).

(** *** A reader for JSON texts

    [json::parse] is library code.  The theorems on the server take the
    parser as a parameter; [parse] below is the instance the examples are
    run with.  It reads RFC 8259 texts of 7-bit characters: insignificant
    white space, the three literals, numbers, strings with their escapes
    (a [\u] escape below 0x80), arrays and objects, nested at most
    [max_depth] deep as with the library's default options, and nothing
    but white space after the value.  Of two members with one key the
    later is kept. *)

Definition quote : ascii := "034"%char.
Definition backslash : ascii := "092"%char.

Definition is_ws (c : ascii) : bool :=
  let n := nat_of_ascii c in
  (n =? 32)%nat || (n =? 9)%nat || (n =? 10)%nat || (n =? 13)%nat.

Definition is_digit (c : ascii) : bool :=
  let n := nat_of_ascii c in (48 <=? n)%nat && (n <=? 57)%nat.

Fixpoint skip_ws (cs : list ascii) : list ascii :=
  match cs with
  | c :: cs' => if is_ws c then skip_ws cs' else cs
  | [] => []
  end.

(** [expect lit cs]: [cs] without its prefix [lit]. *)
Fixpoint expect (lit cs : list ascii) : option (list ascii) :=
  match lit, cs with
  | [], _ => Some cs
  | l :: lit', c :: cs' => if Ascii.eqb l c then expect lit' cs' else None
  | _ :: _, [] => None
  end.

Fixpoint take_digits (cs : list ascii) : list ascii * list ascii :=
  match cs with
  | c :: cs' =>
      if is_digit c
      then let '(ds, rest) := take_digits cs' in (c :: ds, rest)
      else ([], cs)
  | [] => ([], [])
  end.

(** number = [ "-" ] int [ "." 1*DIGIT ] [ ("e" / "E") [ "+" / "-" ] 1*DIGIT ],
    int = "0" / ( %x31-39 *DIGIT ). *)
Definition read_number (cs : list ascii) : option (list ascii * list ascii) :=
  let '(sign, cs1) :=
    match cs with
    | "-"%char :: r => (["-"%char], r)
    | _ => ([], cs)
    end in
  let int_part :=
    match cs1 with
    | "0"%char :: r => Some (["0"%char], r)
    | c :: _ => if is_digit c then Some (take_digits cs1) else None
    | [] => None
    end in
  '(ip, cs2) ← int_part;
  '(fp, cs3) ←
    match cs2 with
    | "."%char :: r =>
        match take_digits r with
        | ([], _) => None
        | (ds, r') => Some ("."%char :: ds, r')
        end
    | _ => Some ([], cs2)
    end;
  '(ep, cs4) ←
    match cs3 with
    | e :: r =>
        if Ascii.eqb e "e"%char || Ascii.eqb e "E"%char then
          let '(sg, r1) :=
            match r with
            | "+"%char :: r1 => (["+"%char], r1)
            | "-"%char :: r1 => (["-"%char], r1)
            | _ => ([], r)
            end in
          match take_digits r1 with
          | ([], _) => None
          | (ds, r2) => Some (e :: sg ++ ds, r2)
          end
        else Some ([], cs3)
    | [] => Some ([], cs3)
    end;
  Some (sign ++ ip ++ fp ++ ep, cs4).

Definition hex_digit (c : ascii) : option nat :=
  let n := nat_of_ascii c in
  if (48 <=? n)%nat && (n <=? 57)%nat then Some (n - 48)
  else if (65 <=? n)%nat && (n <=? 70)%nat then Some (n - 55)
  else if (97 <=? n)%nat && (n <=? 102)%nat then Some (n - 87)
  else None.

(** The characters of a string up to its closing quote. *)
Fixpoint read_chars (cs : list ascii) (n : nat) : option (list ascii * list ascii) :=
  match n with
  | O => None
  | S n' =>
      match cs with
      | [] => None
      | c :: cs' =>
          if Ascii.eqb c quote then Some ([], cs')
          else if Ascii.eqb c backslash then
            match cs' with
            | e :: cs'' =>
                let simple (x : ascii) :=
                  '(s, r) ← read_chars cs'' n'; Some (x :: s, r) in
                if Ascii.eqb e quote then simple quote
                else if Ascii.eqb e backslash then simple backslash
                else if Ascii.eqb e "/"%char then simple "/"%char
                else if Ascii.eqb e "b"%char then simple "008"%char
                else if Ascii.eqb e "f"%char then simple "012"%char
                else if Ascii.eqb e "n"%char then simple "010"%char
                else if Ascii.eqb e "r"%char then simple "013"%char
                else if Ascii.eqb e "t"%char then simple "009"%char
                else if Ascii.eqb e "u"%char then
                  match cs'' with
                  | h3 :: h2 :: h1 :: h0 :: r0 =>
                      a ← hex_digit h3; b ← hex_digit h2;
                      c1 ← hex_digit h1; d ← hex_digit h0;
                      let code := (((a * 16 + b) * 16 + c1) * 16 + d)%nat in
                      if (code <? 128)%nat
                      then '(s, r) ← read_chars r0 n';
                           Some (ascii_of_nat code :: s, r)
                      else None
                  | _ => None
                  end
                else None
            | [] => None
            end
          else if (nat_of_ascii c <? 32)%nat || (127 <? nat_of_ascii c)%nat then None
          else '(s, r) ← read_chars cs' n'; Some (c :: s, r)
      end
  end.

Definition read_string (cs : list ascii) : option (string * list ascii) :=
  '(s, r) ← read_chars cs (S (length cs)); Some (string_of_list_ascii s, r).

(** Insertion of a member parsed later: a member already stored under the
    key is replaced where it stands. *)
Fixpoint put (key : string) (v : value) (ms : list (string * value))
  : list (string * value) :=
  match ms with
  | [] => [(key, v)]
  | (k, w) :: ms' =>
      if String.eqb k key then (k, v) :: ms' else (k, w) :: put key v ms'
  end.

Definition max_depth : nat := 32.

(** [read_value depth n cs]: one value at the head of [cs].  [depth] is the
    number of array or object levels still allowed, [n] bounds the number
    of items read. *)
Fixpoint read_value (depth n : nat) (cs : list ascii) {struct n}
  : option (value * list ascii) :=
  match n with
  | O => None
  | S n' =>
      match skip_ws cs with
      | [] => None
      | c :: r =>
          if Ascii.eqb c "n"%char then
            r' ← expect (list_ascii_of_string "ull") r; Some (Null, r')
          else if Ascii.eqb c "t"%char then
            r' ← expect (list_ascii_of_string "rue") r; Some (Boolean true, r')
          else if Ascii.eqb c "f"%char then
            r' ← expect (list_ascii_of_string "alse") r; Some (Boolean false, r')
          else if Ascii.eqb c quote then
            '(s, r') ← read_string r; Some (Str s, r')
          else if Ascii.eqb c "["%char then
            match depth with
            | O => None
            | S depth' =>
                match skip_ws r with
                | "]"%char :: r' => Some (Array [], r')
                | _ => '(vs, r') ← read_items depth' n' r; Some (Array vs, r')
                end
            end
          else if Ascii.eqb c "{"%char then
            match depth with
            | O => None
            | S depth' =>
                match skip_ws r with
                | "}"%char :: r' => Some (Object [], r')
                | _ => '(ms, r') ← read_members depth' n' [] r; Some (Object ms, r')
                end
            end
          else
            '(lex, r') ← read_number (c :: r);
            Some (Number (string_of_list_ascii lex), r')
      end
  end
(** value *( "," value ) "]" *)
with read_items (depth n : nat) (cs : list ascii) {struct n}
  : option (list value * list ascii) :=
  match n with
  | O => None
  | S n' =>
      '(v, r) ← read_value depth n' cs;
      match skip_ws r with
      | "]"%char :: r' => Some ([v], r')
      | ","%char :: r' => '(vs, r'') ← read_items depth n' r'; Some (v :: vs, r'')
      | _ => None
      end
  end
(** string ":" value *( "," string ":" value ) "}" *)
with read_members (depth n : nat) (acc : list (string * value)) (cs : list ascii)
  {struct n} : option (list (string * value) * list ascii) :=
  match n with
  | O => None
  | S n' =>
      match skip_ws cs with
      | c :: r =>
          if Ascii.eqb c quote then
            '(k, r1) ← read_string r;
            match skip_ws r1 with
            | ":"%char :: r2 =>
                '(v, r3) ← read_value depth n' r2;
                let acc' := put k v acc in
                match skip_ws r3 with
                | "}"%char :: r4 => Some (acc', r4)
                | ","%char :: r4 => read_members depth n' acc' r4
                | _ => None
                end
            | _ => None
            end
          else None
      | [] => None
      end
  end.

(** [json::parse(buf)]: the value of the whole text, or an exception. *)
Definition parse (buf : string) : option value :=
  let cs := list_ascii_of_string buf in
  '(v, r) ← read_value max_depth (S (length cs)) cs;
  match skip_ws r with
  | [] => Some v
  | _ :: _ => None
  end.

(** JSON texts as [JSON.stringify] of the web client writes them. *)
Definition quoted (s : string) : string :=
  String quote (s +:+ String quote EmptyString).

Definition member (key text : string) : string := quoted key +:+ ":" +:+ text.

Fixpoint commas (texts : list string) : string :=
  match texts with
  | [] => EmptyString
  | [t] => t
  | t :: ts => t +:+ "," +:+ commas ts
  end.

Definition object_text (members : list string) : string :=
  "{" +:+ commas members +:+ "}".

End Json.

(** ** The server: [server.h] and [server.cpp] *)

Module Server.

(** A [websocket::stream] object, by identity.  [websocket_type] is the
    [std::shared_ptr] to one: [None] is the null pointer. *)
Definition conn : Type := nat.
Definition websocket_type : Type := option conn.

(** [struct socket_t]. *)
Record socket_t : Type := { ws : websocket_type }.

Definition set_ws (websocket_stream : websocket_type) (s : socket_t) : socket_t :=
  {| ws := websocket_stream |}.

Definition empty (s : socket_t) : bool :=
  match ws s with None => true | Some _ => false end.

(** [class server_t], default constructed. *)
Record server_t : Type := {
  addr : string;
  port : Z;
  sender : socket_t;
  viewer : socket_t
}.

Definition server_default : server_t :=
  {| addr := "0.0.0.0"; port := 8080;
     sender := {| ws := None |}; viewer := {| ws := None |} |}.

Definition everybody (s : server_t) : bool :=
  negb (empty (sender s) || empty (viewer s)).

(** The exceptions that reach the handlers of [client_worker]. *)
Inductive exn : Type :=
| closed          (* system_error, websocket::error::closed *)
| ws_failure      (* any other system_error of the stream *)
| parse_failure   (* json::parse *)
| not_an_object   (* value::as_object *)
| not_a_string.   (* value::as_string *)

(** What the process does that can be observed.  [server.cpp] prints;
    it has no call that writes a frame to a stream or closes one, so
    [WsWrite] and [WsClose] are produced by no transition below. *)
Inductive event : Type :=
| Stdout (line : string)
| Stderr (e : exn)
| WsWrite (c : conn) (text : string)
| WsClose (c : conn).

(** Where a worker thread stands in [client_worker]. *)
Inductive pc : Type :=
| at_accept                 (* before ws->accept() *)
| at_read                   (* in ws->read(buff) *)
| at_check (msg : string)   (* msg printed, before server->everybody() *)
| at_log (msg : string)     (* before server->log_participants(msg, ws) *)
| returned.

Record world : Type := {
  srv : server_t;
  threads : gmap conn pc;
  out : list event
}.

(** [main] constructs the server and [server_t::launch] prints before its
    first [accept]. *)
Definition initial : world :=
  {| srv := server_default; threads := ∅;
     out := [Stdout "Listening..."; Stdout EmptyString] |}.

(** The two [catch] clauses of [client_worker]; the function returns after
    either.  Which clause takes an exception of [boost::json], and so the
    text on [std::cerr], depends on the class the library throws; only the
    exception is kept. *)
Definition handler (e : exn) : list event :=
  match e with
  | closed => [Stdout "Client closed websocket"]
  | _ => [Stderr e]
  end.

(** What happens next: the acceptor or a stream delivers something, or a
    worker thread takes its next step. *)
Inductive label : Type :=
| Spawn (c : conn)               (* launch: accept, make_shared, thread *)
| Upgraded (c : conn)            (* ws->accept() returns *)
| Failed (c : conn)              (* accept() or read() throws, not closed *)
| Recv (c : conn) (msg : string) (* ws->read(buff) returns a frame *)
| Closed (c : conn)              (* read() throws websocket::error::closed *)
| Check (c : conn)               (* if (!server->everybody()) *)
| Log (c : conn).                (* server->log_participants(msg, ws) *)

Definition set_pc (c : conn) (p : pc) (evs : list event) (w : world) : world :=
  {| srv := srv w; threads := <[c := p]> (threads w); out := out w ++ evs |}.

Section WithParser.

(** [json::parse], as a function from the text to the value, [None] for
    the exception. *)
Variable parse : string → option Json.value.

(** [server_t::log_participants], the body under the lock: the exception
    that leaves it, or the server after it and the lines printed. *)
Definition log_participants (buf : string) (socket : websocket_type)
    (s : server_t) : exn + server_t * list string :=
  match parse buf with
  | None => inl parse_failure
  | Some json_content =>
      match Json.as_object json_content with
      | None => inl not_an_object
      | Some members =>
          match Json.as_string (Json.index members "role") with
          | None => inl not_a_string
          | Some role =>
              if String.eqb role "sender" then
                inr ({| addr := addr s; port := port s;
                        sender := set_ws socket (sender s);
                        viewer := viewer s |},
                     ["Sender is logged"])
              else if String.eqb role "viewer" then
                inr ({| addr := addr s; port := port s;
                        sender := sender s;
                        viewer := set_ws socket (viewer s) |},
                     ["Viewer is logged"])
              else inr (s, [])
          end
      end
  end.

(** [server_t::launch], one turn of its loop: the connection [c] is
    accepted, its stream made and its worker thread started. *)
Definition launch (c : conn) (w : world) : option world :=
  match threads w !! c with
  | None =>
      Some (set_pc c at_accept
              [Stdout "Connected user TCP";
               Stdout "Listening..."; Stdout EmptyString] w)
  | Some _ => None
  end.

(** [client_worker(ws, server)], one step of the thread of a stream; [None]
    when the thread does not stand where the label applies.  The mutex of
    [log_participants] makes its body one step; the test of [everybody()]
    is made outside the lock and is a step of its own. *)
Definition client_worker (l : label) (w : world) : option world :=
  match l with
  | Spawn _ => None
  | Upgraded c =>
      match threads w !! c with
      | Some at_accept => Some (set_pc c at_read [Stdout "Connected user WS"] w)
      | _ => None
      end
  | Failed c =>
      match threads w !! c with
      | Some at_accept | Some at_read =>
          Some (set_pc c returned (handler ws_failure) w)
      | _ => None
      end
  | Recv c msg =>
      match threads w !! c with
      | Some at_read => Some (set_pc c (at_check msg) [Stdout msg] w)
      | _ => None
      end
  | Closed c =>
      match threads w !! c with
      | Some at_read => Some (set_pc c returned (handler closed) w)
      | _ => None
      end
  | Check c =>
      match threads w !! c with
      | Some (at_check msg) =>
          if everybody (srv w)
          then Some (set_pc c at_read [] w)
          else Some (set_pc c (at_log msg) [] w)
      | _ => None
      end
  | Log c =>
      match threads w !! c with
      | Some (at_log msg) =>
          match log_participants msg (Some c) (srv w) with
          | inr (s', lines) =>
              Some {| srv := s'; threads := <[c := at_read]> (threads w);
                      out := out w ++ map Stdout lines |}
          | inl e => Some (set_pc c returned (handler e) w)
          end
      | _ => None
      end
  end.

(** One transition of the process; [None] when the label is not enabled. *)
Definition step (l : label) (w : world) : option world :=
  match l with
  | Spawn c => launch c w
  | _ => client_worker l w
  end.

Fixpoint run (ls : list label) (w : world) : option world :=
  match ls with
  | [] => Some w
  | l :: ls' => w' ← step l w; run ls' w'
  end.

(** One turn of the [while] loop of the worker of [c] on the frame [msg],
    with no step of another thread in between. *)
Definition frame (c : conn) (msg : string) (w : world) : option world :=
  w1 ← step (Recv c msg) w;
  w2 ← step (Check c) w1;
  if everybody (srv w2) then Some w2 else step (Log c) w2.

Definition reachable (w : world) : Prop := ∃ ls, run ls initial = Some w.

(** The members of the envelope the protocol names. *)
Definition field (key buf : string) : option string :=
  v ← parse buf; ms ← Json.as_object v; Json.as_string (Json.index ms key).

Definition type_of : string → option string := field "type".
Definition role_of : string → option string := field "role".

End WithParser.

Global Arguments step : simpl never.

(** The stream of [c] exists as long as a [shared_ptr] to it does: the [ws]
    of its worker until [client_worker] returns, and a slot it was moved
    into.  When the last one goes, the stream and its socket are destroyed. *)
Definition worker_holds (w : world) (c : conn) : bool :=
  match threads w !! c with
  | Some returned | None => false
  | Some _ => true
  end.

Definition occupant (s : socket_t) (c : conn) : bool :=
  match ws s with Some c' => Nat.eqb c' c | None => false end.

Definition slot_holds (w : world) (c : conn) : bool :=
  occupant (sender (srv w)) c || occupant (viewer (srv w)) c.

Definition stream_alive (w : world) (c : conn) : bool :=
  worker_holds w c || slot_holds w c.

(** The frames written to [c] so far. *)
Definition delivered (w : world) (c : conn) : list string :=
  omap (λ e, match e with
             | WsWrite c' text => if Nat.eqb c' c then Some text else None
             | _ => None
             end) (out w).

End Server.

(** ** The web client: [client.js] *)

(** The client of the C++ server: it joins as viewer when its socket opens,
    and its [onmessage] calls [handleOffer] for a frame of type offer that
    has an [sdp] and [addRemoteCandidate] for a frame of type candidate.
    Handlers of later messages run while an earlier one is suspended at an
    [await]; the transitions below are the pieces between [await]s. *)

Module WebClient.

(** What [msg.candidate] holds after [JSON.parse]. *)
Definition candidate : Type := Json.value.

(** An [async] function suspended at an [await], by the promise it waits
    for. *)
Inductive task : Type :=
| awaits_setRemoteDescription (sdp : string)
    (* handleOffer: await peerConnection.setRemoteDescription(...) *)
| awaits_addIceCandidate (array next : nat)
    (* handleOffer, in the for-of over the array object [array], whose
       iterator stands at index [next] *)
| awaits_createAnswer
    (* handleOffer: await peerConnection.createAnswer() *)
| awaits_setLocalDescription (sdp : string)
    (* handleOffer: await peerConnection.setLocalDescription(answerServer) *)
| awaits_live
    (* addRemoteCandidate: await peerConnection.addIceCandidate(candidate) *).

(** The client between [start()] and [stop()]: [peerConnection] and
    [websocketSignal] exist.  Arrays are objects: [arrays] holds them by
    allocation, and the variable [pendingRemoteCandidates] names one. *)
Record client : Type := {
  remoteDescription : option string;
  localDescription : option string;
  arrays : list (list candidate);
  pendingRemoteCandidates : nat;
  tasks : list task;
  added : list candidate;   (* the calls of peerConnection.addIceCandidate *)
  sent : list string        (* the sdp of the answers sent to the server *)
}.

(** [let pendingRemoteCandidates = []], after [start()]. *)
Definition started : client :=
  {| remoteDescription := None; localDescription := None;
     arrays := [[]]; pendingRemoteCandidates := 0;
     tasks := []; added := []; sent := [] |}.

(** The array [pendingRemoteCandidates] names. *)
Definition queue (st : client) : list candidate :=
  default [] (arrays st !! pendingRemoteCandidates st).

Inductive outcome : Type :=
| fulfilled (value : string)   (* the sdp, for createAnswer *)
| rejected.

Inductive label : Type :=
| Offer (sdp : string)
    (* onmessage, case "offer" with an sdp: handleOffer is called *)
| Candidate (c : candidate)
    (* onmessage, case "candidate": addRemoteCandidate is called *)
| Settled (i : nat) (o : outcome)
    (* the promise that task [i] awaits settles *).

(** [addRemoteCandidate(candidate)], to its [return] or its [await]. *)
Definition addRemoteCandidate (c : candidate) (st : client) : client :=
  match remoteDescription st with
  | None =>
      {| remoteDescription := remoteDescription st;
         localDescription := localDescription st;
         arrays := alter (λ q, q ++ [c]) (pendingRemoteCandidates st) (arrays st);
         pendingRemoteCandidates := pendingRemoteCandidates st;
         tasks := tasks st; added := added st; sent := sent st |}
  | Some _ =>
      {| remoteDescription := remoteDescription st;
         localDescription := localDescription st;
         arrays := arrays st;
         pendingRemoteCandidates := pendingRemoteCandidates st;
         tasks := tasks st ++ [awaits_live];
         added := added st ++ [c]; sent := sent st |}
  end.

(** [handleOffer(offer)], to its first [await]. *)
Definition handleOffer (sdp : string) (st : client) : client :=
  {| remoteDescription := remoteDescription st;
     localDescription := localDescription st;
     arrays := arrays st;
     pendingRemoteCandidates := pendingRemoteCandidates st;
     tasks := tasks st ++ [awaits_setRemoteDescription sdp];
     added := added st; sent := sent st |}.

(** One turn of the for-of of [handleOffer] for task [i], the iterator over
    [array] at [next]: the next element is handed to [addIceCandidate] and
    the function suspends; at the end of the array the variable is bound to
    a new empty array and [createAnswer] is called. *)
Definition flush_next (i array next : nat) (st : client) : client :=
  match arrays st !! array ≫= (λ q, q !! next) with
  | Some c =>
      {| remoteDescription := remoteDescription st;
         localDescription := localDescription st;
         arrays := arrays st;
         pendingRemoteCandidates := pendingRemoteCandidates st;
         tasks := <[i := awaits_addIceCandidate array (S next)]> (tasks st);
         added := added st ++ [c]; sent := sent st |}
  | None =>
      {| remoteDescription := remoteDescription st;
         localDescription := localDescription st;
         arrays := arrays st ++ [[]];
         pendingRemoteCandidates := length (arrays st);
         tasks := <[i := awaits_createAnswer]> (tasks st);
         added := added st; sent := sent st |}
  end.

(** [handleOffer] after [setRemoteDescription] is fulfilled. *)
Definition after_setRemoteDescription (i : nat) (sdp : string) (st : client)
  : client :=
  let st1 :=
    {| remoteDescription := Some sdp;
       localDescription := localDescription st;
       arrays := arrays st;
       pendingRemoteCandidates := pendingRemoteCandidates st;
       tasks := tasks st; added := added st; sent := sent st |} in
  if (0 <? length (queue st1))%nat
  then flush_next i (pendingRemoteCandidates st1) 0 st1
  else
    {| remoteDescription := Some sdp;
       localDescription := localDescription st;
       arrays := arrays st;
       pendingRemoteCandidates := pendingRemoteCandidates st;
       tasks := <[i := awaits_createAnswer]> (tasks st);
       added := added st; sent := sent st |}.

Definition drop_task (i : nat) (st : client) : client :=
  {| remoteDescription := remoteDescription st;
     localDescription := localDescription st;
     arrays := arrays st;
     pendingRemoteCandidates := pendingRemoteCandidates st;
     tasks := delete i (tasks st); added := added st; sent := sent st |}.

Definition step (l : label) (st : client) : option client :=
  match l with
  | Offer sdp => Some (handleOffer sdp st)
  | Candidate c => Some (addRemoteCandidate c st)
  | Settled i o =>
      match tasks st !! i with
      | None => None
      | Some (awaits_setRemoteDescription sdp) =>
          match o with
          | fulfilled _ => Some (after_setRemoteDescription i sdp st)
          | rejected => Some (drop_task i st)
          end
      | Some (awaits_addIceCandidate array next) =>
          (* a rejection is caught in the loop and logged *)
          Some (flush_next i array next st)
      | Some awaits_createAnswer =>
          match o with
          | fulfilled answer =>
              Some {| remoteDescription := remoteDescription st;
                      localDescription := localDescription st;
                      arrays := arrays st;
                      pendingRemoteCandidates := pendingRemoteCandidates st;
                      tasks := <[i := awaits_setLocalDescription answer]> (tasks st);
                      added := added st; sent := sent st |}
          | rejected => Some (drop_task i st)
          end
      | Some (awaits_setLocalDescription answer) =>
          match o with
          | fulfilled _ =>
              Some {| remoteDescription := remoteDescription st;
                      localDescription := Some answer;
                      arrays := arrays st;
                      pendingRemoteCandidates := pendingRemoteCandidates st;
                      tasks := delete i (tasks st);
                      added := added st; sent := sent st ++ [answer] |}
          | rejected => Some (drop_task i st)
          end
      | Some awaits_live => Some (drop_task i st)
      end
  end.

Fixpoint run (ls : list label) (st : client) : option client :=
  match ls with
  | [] => Some st
  | l :: ls' => st' ← step l st; run ls' st'
  end.

(** The variable names an allocated array. *)
Definition well_formed (st : client) : Prop :=
  is_Some (arrays st !! pendingRemoteCandidates st).

End WebClient.

(** ** The entry point: [main.cpp] *)

Module Main.

Inductive stoi_error : Type :=
| invalid_argument   (* no conversion could be performed *)
| out_of_range.      (* the value does not fit an int *)

Definition INT_MIN : Z := -2147483648.
Definition INT_MAX : Z := 2147483647.

(** [isspace] in the C locale. *)
Definition isspace (c : ascii) : bool :=
  let n := nat_of_ascii c in
  (n =? 32)%nat || ((9 <=? n)%nat && (n <=? 13)%nat).

Fixpoint skip_space (cs : list ascii) : list ascii :=
  match cs with
  | c :: cs' => if isspace c then skip_space cs' else cs
  | [] => []
  end.

(** The value of the decimal digits at the head of [cs], after [acc]. *)
Fixpoint read_digits (acc : Z) (cs : list ascii) : Z :=
  match cs with
  | c :: cs' =>
      if Json.is_digit c
      then read_digits (acc * 10 + Z.of_nat (nat_of_ascii c - 48)) cs'
      else acc
  | [] => acc
  end.

(** [std::stoi(str)]: white space, an optional sign, decimal digits; what
    follows the digits is not looked at. *)
Definition stoi (str : string) : stoi_error + Z :=
  let cs := skip_space (list_ascii_of_string str) in
  let '(negative, ds) :=
    match cs with
    | "-"%char :: r => (true, r)
    | "+"%char :: r => (false, r)
    | _ => (false, cs)
    end in
  match ds with
  | d :: _ =>
      if Json.is_digit d then
        let v := read_digits 0 ds in
        let v := if negative then (- v)%Z else v in
        if ((INT_MIN <=? v) && (v <=? INT_MAX))%Z then inr v
        else inl out_of_range
      else inl invalid_argument
  | [] => inl invalid_argument
  end.

(** [main(argc, argv)], up to its call of [s.launch()]: the server that is
    launched, or the exception of [std::stoi], which nothing catches.
    [argv] holds the program name and the arguments; the two locals [addr]
    and [port] of the [if] are not used after it. *)
Definition main (argv : list string) : stoi_error + Server.server_t :=
  let s := Server.server_default in
  if (length argv =? 3)%nat then
    match stoi (default EmptyString (argv !! 2)) with
    | inl e => inl e
    | inr _ => inr s
    end
  else inr s.

End Main.

(** ** The echo server: the earlier [launch(addr, port)] of [server.cpp] *)

Module Echo.

(** What one call of [socket.read_some] on the 1024 byte buffer gives. *)
Inductive arrival : Type :=
| Data (bytes : list ascii) (written : bool)
    (* size bytes were read; [written]: boost::asio::write returns, rather
       than throws *)
| Eof      (* ec == boost::asio::error::eof *)
| Fault.   (* another error code: size is 0 *)

Definition buffer_size : nat := 1024.

(** How the inner loop of a connection ends. *)
Inductive ending : Type :=
| at_eof          (* break: the next connection is accepted *)
| reading         (* the input is used up: read_some does not return *)
| write_failed.   (* the exception of write leaves both loops *)

(** The inner [while] loop on one connection: the buffers passed to
    [boost::asio::write], in order, and how the loop ends.  After an error
    other than end of file [size] is 0 and an empty buffer is written. *)
Fixpoint serve (input : list arrival) : list (list ascii) * ending :=
  match input with
  | [] => ([], reading)
  | Eof :: _ => ([], at_eof)
  | Fault :: rest => let '(ws, e) := serve rest in ([] :: ws, e)
  | Data bytes true :: rest => let '(ws, e) := serve rest in (bytes :: ws, e)
  | Data bytes false :: _ => ([], write_failed)
  end.

(** The outer [while] loop over the connections accepted one after the
    other: what is written to each connection served, and whether [launch]
    returned (an exception reached its [catch]). *)
Fixpoint launch (connections : list (list arrival))
  : list (list (list ascii)) * bool :=
  match connections with
  | [] => ([], false)
  | input :: rest =>
      match serve input with
      | (ws, at_eof) => let '(wss, r) := launch rest in (ws :: wss, r)
      | (ws, reading) => ([ws], false)
      | (ws, write_failed) => ([ws], true)
      end
  end.

(** The buffer written after an arrival. *)
Definition payload (a : arrival) : list ascii :=
  match a with Data bytes _ => bytes | Eof | Fault => [] end.

(** Every write of the connection succeeds. *)
Definition all_written (input : list arrival) : Prop :=
  ∀ bytes, Data bytes false ∉ input.

End Echo.

(** ** The page around the web client: [start], [stop] and the sockets *)

Module Page.

(** [WebSocket.readyState]. *)
Inductive ready : Type := CONNECTING | OPEN | CLOSING | CLOSED.

(** What the client passes to [websocketSignal.send], before
    [JSON.stringify]. *)
Inductive frame : Type :=
| join_viewer                        (* {type: "join", role: "viewer"} *)
| candidate_frame (c : Json.value)   (* {type: "candidate", candidate} *)
| answer_frame (sdp : string).       (* {type: "answer", sdp} *)

(** A [WebSocket] object. *)
Record socket : Type := {
  readyState : ready;
  frames : list frame   (* the frames handed to the network *)
}.

(** An [RTCPeerConnection] object. *)
Record rtc : Type := {
  rtc_closed : bool;      (* close() was called *)
  handlers : bool;        (* ontrack and onicecandidate are set *)
  failed : bool           (* iceConnectionState or connectionState is failed *)
}.

(** The globals of [client.js], the two buttons and the video element; the
    objects are held by allocation, the variables name them. *)
Record page : Type := {
  videoControlsStart : bool;
  startBtn_disabled : bool;
  stopBtn_disabled : bool;
  srcObject : option nat;
  peerConnection : option nat;
  websocketSignal : option nat;
  connections : list rtc;
  sockets : list socket
}.

(** [controlsStarter(running)]. *)
Definition controlsStarter (running : bool) (p : page) : page :=
  {| videoControlsStart := videoControlsStart p;
     startBtn_disabled := running;
     stopBtn_disabled := negb running;
     srcObject := srcObject p;
     peerConnection := peerConnection p;
     websocketSignal := websocketSignal p;
     connections := connections p;
     sockets := sockets p |}.

(** The script has run to its end: the variables are declared and
    [controlsStarter(false)] was called. *)
Definition loaded : page :=
  {| videoControlsStart := false;
     startBtn_disabled := false; stopBtn_disabled := true;
     srcObject := None;
     peerConnection := None; websocketSignal := None;
     connections := []; sockets := [] |}.

(** [createPeerConnection()]. *)
Definition createPeerConnection (p : page) : page :=
  {| videoControlsStart := videoControlsStart p;
     startBtn_disabled := startBtn_disabled p;
     stopBtn_disabled := stopBtn_disabled p;
     srcObject := srcObject p;
     peerConnection := Some (length (connections p));
     websocketSignal := websocketSignal p;
     connections :=
       connections p ++ [{| rtc_closed := false; handlers := true;
                            failed := false |}];
     sockets := sockets p |}.

(** [connectWebSocket()]: the socket is made, the listeners are set. *)
Definition connectWebSocket (p : page) : page :=
  {| videoControlsStart := videoControlsStart p;
     startBtn_disabled := startBtn_disabled p;
     stopBtn_disabled := stopBtn_disabled p;
     srcObject := srcObject p;
     peerConnection := peerConnection p;
     websocketSignal := Some (length (sockets p));
     connections := connections p;
     sockets := sockets p ++ [{| readyState := CONNECTING; frames := [] |}] |}.

(** [start()]. *)
Definition start (p : page) : page :=
  if videoControlsStart p then p
  else
    connectWebSocket
      (createPeerConnection
         (controlsStarter true
            {| videoControlsStart := true;
               startBtn_disabled := startBtn_disabled p;
               stopBtn_disabled := stopBtn_disabled p;
               srcObject := srcObject p;
               peerConnection := peerConnection p;
               websocketSignal := websocketSignal p;
               connections := connections p;
               sockets := sockets p |})).

(** [RTCPeerConnection.close()], after the two handlers were set to null. *)
Definition close_rtc (c : rtc) : rtc :=
  {| rtc_closed := true; handlers := false; failed := failed c |}.

(** [WebSocket.close()]. *)
Definition close_socket (s : socket) : socket :=
  {| readyState := match readyState s with
                   | CONNECTING | OPEN | CLOSING => CLOSING
                   | CLOSED => CLOSED
                   end;
     frames := frames s |}.

(** [stop()]. *)
Definition stop (p : page) : page :=
  if negb (videoControlsStart p) then p
  else
    {| videoControlsStart := false;
       startBtn_disabled := false;
       stopBtn_disabled := true;
       srcObject := None;
       peerConnection := None;
       websocketSignal := None;
       connections :=
         match peerConnection p with
         | Some k => alter close_rtc k (connections p)
         | None => connections p
         end;
       sockets :=
         match websocketSignal p with
         | Some j => alter close_socket j (sockets p)
         | None => sockets p
         end |}.

(** [websocketSignal.send(f)] through the global variable: an exception when
    the variable is null or the socket still connecting, nothing when the
    socket is closing or closed. *)
Definition send (f : frame) (p : page) : page :=
  match websocketSignal p with
  | Some j =>
      {| videoControlsStart := videoControlsStart p;
         startBtn_disabled := startBtn_disabled p;
         stopBtn_disabled := stopBtn_disabled p;
         srcObject := srcObject p;
         peerConnection := peerConnection p;
         websocketSignal := websocketSignal p;
         connections := connections p;
         sockets :=
           alter (λ s, match readyState s with
                       | OPEN => {| readyState := OPEN; frames := frames s ++ [f] |}
                       | _ => s
                       end) j (sockets p) |}
  | None => p
  end.

Definition set_sockets (ss : list socket) (p : page) : page :=
  {| videoControlsStart := videoControlsStart p;
     startBtn_disabled := startBtn_disabled p;
     stopBtn_disabled := stopBtn_disabled p;
     srcObject := srcObject p;
     peerConnection := peerConnection p;
     websocketSignal := websocketSignal p;
     connections := connections p;
     sockets := ss |}.

Definition set_ready (r : ready) (s : socket) : socket :=
  {| readyState := r; frames := frames s |}.

(** What the user and the browser do to the page. *)
Inductive event : Type :=
| ClickStart   (* start() is called *)
| ClickStop    (* stop() is called *)
| Opened (j : nat)
    (* socket [j] is connected: the open listener sends the join *)
| Lost (j : nat)
    (* socket [j] is closed: the close listener logs *)
| StateFailed (k : nat)
    (* connection [k] reports failed: the state change handlers call stop() *)
| IceCandidate (k : nat) (c : Json.value)
    (* onicecandidate of connection [k] with a candidate *)
| Track (k : nat) (stream : nat)
    (* ontrack of connection [k] *)
| AnswerReady (sdp : string).
    (* handleOffer has set its local description: it sends the answer *)

(** One event and its handler; [None] when the browser cannot deliver the
    event: a socket opens only while connecting, a closed connection fires
    nothing, a handler set to null is not called. *)
Definition step (e : event) (p : page) : option page :=
  match e with
  | ClickStart => Some (start p)
  | ClickStop => Some (stop p)
  | Opened j =>
      match sockets p !! j with
      | Some {| readyState := CONNECTING |} =>
          Some (send join_viewer
                  (set_sockets (alter (set_ready OPEN) j (sockets p)) p))
      | _ => None
      end
  | Lost j =>
      match sockets p !! j with
      | Some _ => Some (set_sockets (alter (set_ready CLOSED) j (sockets p)) p)
      | None => None
      end
  | StateFailed k =>
      match connections p !! k with
      | Some c =>
          if rtc_closed c then None
          else
            let p1 :=
              {| videoControlsStart := videoControlsStart p;
                 startBtn_disabled := startBtn_disabled p;
                 stopBtn_disabled := stopBtn_disabled p;
                 srcObject := srcObject p;
                 peerConnection := peerConnection p;
                 websocketSignal := websocketSignal p;
                 connections :=
                   alter (λ c, {| rtc_closed := rtc_closed c;
                                  handlers := handlers c;
                                  failed := true |}) k (connections p);
                 sockets := sockets p |} in
            match peerConnection p1 ≫= (λ k', connections p1 !! k') with
            | Some c' => if failed c' then Some (stop p1) else Some p1
            | None => Some p1
            end
      | None => None
      end
  | IceCandidate k c =>
      match connections p !! k with
      | Some {| rtc_closed := false; handlers := true |} =>
          Some (send (candidate_frame c) p)
      | _ => None
      end
  | Track k stream =>
      match connections p !! k with
      | Some {| rtc_closed := false; handlers := true |} =>
          Some {| videoControlsStart := videoControlsStart p;
                  startBtn_disabled := startBtn_disabled p;
                  stopBtn_disabled := stopBtn_disabled p;
                  srcObject := Some stream;
                  peerConnection := peerConnection p;
                  websocketSignal := websocketSignal p;
                  connections := connections p;
                  sockets := sockets p |}
      | _ => None
      end
  | AnswerReady sdp => Some (send (answer_frame sdp) p)
  end.

Fixpoint run (es : list event) (p : page) : option page :=
  match es with
  | [] => Some p
  | e :: es' => p' ← step e p; run es' p'
  end.

(** The frames of a socket are none, or the join followed by frames that
    are not a join. *)
Definition join_first (s : socket) : Prop :=
  frames s = []
  ∨ ∃ fs, frames s = join_viewer :: fs ∧ join_viewer ∉ fs.

(** A socket that is connecting has sent nothing; one that is open has
    sent its join. *)
Definition socket_ok (s : socket) : Prop :=
  join_first s
  ∧ (readyState s = CONNECTING → frames s = [])
  ∧ (readyState s = OPEN → frames s ≠ []).

(** The controls and the two variables follow [videoControlsStart], and
    every object the variables do not name is closed. *)
Definition page_ok (p : page) : Prop :=
  startBtn_disabled p = videoControlsStart p
  ∧ stopBtn_disabled p = negb (videoControlsStart p)
  ∧ (if videoControlsStart p
     then ∃ k j c, peerConnection p = Some k ∧ websocketSignal p = Some j
                   ∧ connections p !! k = Some c
                   ∧ rtc_closed c = false ∧ handlers c = true
                   ∧ is_Some (sockets p !! j)
     else peerConnection p = None ∧ websocketSignal p = None
          ∧ srcObject p = None)
  ∧ (∀ k c, connections p !! k = Some c → peerConnection p ≠ Some k →
            rtc_closed c = true ∧ handlers c = false)
  ∧ (∀ j s, sockets p !! j = Some s → websocketSignal p ≠ Some j →
            readyState s = CLOSING ∨ readyState s = CLOSED).

Definition all_sockets_ok (p : page) : Prop :=
  ∀ j s, sockets p !! j = Some s → socket_ok s.

End Page.

Import Server.

(** ** The messages of the protocol, as the web client writes them *)

Definition join_text (role : string) : string :=
  Json.object_text [Json.member "type" (Json.quoted "join");
                    Json.member "role" (Json.quoted role)].

Definition offer_text (sdp : string) : string :=
  Json.object_text [Json.member "type" (Json.quoted "offer");
                    Json.member "sdp" (Json.quoted sdp)].

Definition answer_text (sdp : string) : string :=
  Json.object_text [Json.member "type" (Json.quoted "answer");
                    Json.member "sdp" (Json.quoted sdp)].

Definition candidate_text (candidate : string) : string :=
  Json.object_text [Json.member "type" (Json.quoted "candidate");
                    Json.member "candidate"
                      (Json.object_text
                         [Json.member "candidate" (Json.quoted candidate)])].

(** The two roles and their slots in [server_t]. *)
Inductive Role : Type := SENDER | VIEWER.

Definition role_name (r : Role) : string :=
  match r with SENDER => "sender" | VIEWER => "viewer" end.

Definition slot (r : Role) (s : server_t) : socket_t :=
  match r with SENDER => sender s | VIEWER => viewer s end.

Definition counterpart (r : Role) : Role :=
  match r with SENDER => VIEWER | VIEWER => SENDER end.

(** [c] connects and its handshake succeeds. *)
Definition connect (c : conn) : list label := [Spawn c; Upgraded c].

(** The labels of one turn of the loop of [c] on [msg] while a slot is
    empty. *)
Definition send (c : conn) (msg : string) : list label :=
  [Recv c msg; Check c; Log c].

Definition is_print (e : event) : bool :=
  match e with Stdout _ | Stderr _ => true | WsWrite _ _ | WsClose _ => false end.

(** The state an execution of the server ends in, with [Json.parse] for
    [json::parse]; [initial] when a label of [ls] is not enabled. *)
Definition world_after (ls : list label) : world :=
  default initial (run Json.parse ls initial).

(** A frame that is not a signaling envelope: not JSON, or JSON and not an
    object, with the exception [log_participants] raises on it. *)
Definition malformed (parse : string → option Json.value) (msg : string)
  : option exn :=
  match parse msg with
  | None => Some parse_failure
  | Some v =>
      match Json.as_object v with Some _ => None | None => Some not_an_object end
  end.

(** The line [log_participants] prints for a role. *)
Definition logged_line (r : Role) : string :=
  match r with SENDER => "Sender is logged" | VIEWER => "Viewer is logged" end.

(** No worker stands between its test of [everybody()] and its call of
    [log_participants]. *)
Definition settled (w : world) : Prop :=
  ∀ c msg, threads w !! c ≠ Some (at_log msg).

(** ** Executions used as examples *)

(** Scenario A of the specification: the sender joins and sends its offer,
    then the viewer joins. *)
Definition scenario_A : list label :=
  connect 1 ++ send 1 (join_text "sender") ++ send 1 (offer_text "v=0...")
  ++ connect 2 ++ send 2 (join_text "viewer").

(** Both roles join, then the viewer answers. *)
Definition answer_when_paired : list label :=
  connect 1 ++ send 1 (join_text "sender")
  ++ connect 2 ++ send 2 (join_text "viewer")
  ++ [Recv 2 (answer_text "v=0..."); Check 2].

Definition ping_text : string :=
  Json.object_text [Json.member "type" (Json.quoted "ping")].

Definition ping_role_text (role : string) : string :=
  Json.object_text [Json.member "type" (Json.quoted "ping");
                    Json.member "role" (Json.quoted role)].

Definition join_twice : list label :=
  connect 1 ++ send 1 (join_text "sender")
  ++ connect 2 ++ send 2 (join_text "sender").

Definition join_after_pairing : list label :=
  connect 1 ++ send 1 (join_text "sender")
  ++ connect 2 ++ send 2 (join_text "viewer")
  ++ connect 3 ++ [Recv 3 (join_text "sender"); Check 3].

(** Three connections; 1 has joined as sender.  The workers of 2 (a viewer)
    and of 3 (another sender) both read their JOIN and both find
    [everybody()] false; then the worker of 2 runs [log_participants]. *)
Definition late_join_race : list label :=
  connect 1 ++ send 1 (join_text "sender") ++ connect 2 ++ connect 3
  ++ [Recv 2 (join_text "viewer"); Check 2;
      Recv 3 (join_text "sender"); Check 3;
      Log 2].

(** The viewer joins and sends a candidate before any sender exists; then
    the sender joins. *)
Definition candidate_before_pairing : list label :=
  connect 1 ++ send 1 (join_text "viewer") ++ send 1 (candidate_text "a")
  ++ connect 2 ++ send 2 (join_text "sender").

(** ** Measures on the executions of the web client *)


(** The number of offers an execution receives. *)
Fixpoint offers (ls : list WebClient.label) : nat :=
  match ls with
  | [] => 0
  | WebClient.Offer _ :: ls' => S (offers ls')
  | _ :: ls' => offers ls'
  end.

(** A suspended call of [handleOffer], as opposed to one of
    [addRemoteCandidate]. *)
Definition in_handleOffer (t : WebClient.task) : bool :=
  match t with WebClient.awaits_live => false | _ => true end.

Fixpoint suspended_offers (ts : list WebClient.task) : nat :=
  match ts with
  | [] => 0
  | t :: ts' => (if in_handleOffer t then 1 else 0) + suspended_offers ts'
  end.



(** ** The reader on the texts of the protocol *)

Example parse_join_text :
  Json.parse (join_text "viewer")
  = Some (Json.Object [("type", Json.Str "join"); ("role", Json.Str "viewer")]).
Proof. vm_compute. reflexivity. Qed.

Example parse_candidate_text :
  Json.parse (candidate_text "a")
  = Some (Json.Object
            [("type", Json.Str "candidate");
             ("candidate", Json.Object [("candidate", Json.Str "a")])]).
Proof. vm_compute. reflexivity. Qed.

(** White space, numbers, literals, nesting, an escape, and a key that
    occurs twice. *)
Example parse_general_text :
  Json.parse (" { " +:+ Json.member "a" "[1, -2.5e+3, true, null, {}]" +:+ " ,"
              +:+ Json.member "b" (Json.quoted "xA\/") +:+ ","
              +:+ Json.member "a" "false" +:+ "} ")
  = Some (Json.Object [("a", Json.Boolean false); ("b", Json.Str "xA/")]).
Proof. vm_compute. reflexivity. Qed.

Example parse_rejects :
  Json.parse "not json" = None
  ∧ Json.parse EmptyString = None
  ∧ Json.parse "{} {}" = None
  ∧ Json.parse "[1,]" = None
  ∧ Json.parse "01" = None
  ∧ Json.parse (Json.object_text [Json.member "role" "sender"]) = None.
Proof. vm_compute. repeat split. Qed.

Example role_of_texts :
  role_of Json.parse (join_text "sender") = Some "sender"
  ∧ role_of Json.parse (offer_text "v=0...") = None
  ∧ type_of Json.parse (offer_text "v=0...") = Some "offer"
  ∧ role_of Json.parse "[]" = None.
Proof. vm_compute. repeat split. Qed.

(** ** Basic facts on the transition system *)

Section Facts.

Variable parse : string → option Json.value.

Lemma set_pc_set_pc c p1 p2 e1 e2 w :
  set_pc c p2 e2 (set_pc c p1 e1 w) = set_pc c p2 (e1 ++ e2) w.
Proof.
  unfold set_pc; cbn. by rewrite insert_insert_eq, <- app_assoc.
Qed.

Lemma handler_prints e : forallb is_print (handler e) = true.
Proof. by destruct e. Qed.

Lemma map_Stdout_prints lines : forallb is_print (map Stdout lines) = true.
Proof. induction lines; cbn; auto. Qed.

(** Every transition appends to the output, and only printed lines. *)
Lemma step_out l w w' :
  step parse l w = Some w' →
  ∃ evs, out w' = out w ++ evs ∧ forallb is_print evs = true.
Proof.
  destruct l as [c|c|c|c msg|c|c|c]; unfold step, launch, client_worker; intros H;
    destruct (threads w !! c) as [[]|] eqn:Hc; simplify_eq; cbn;
    try (eexists; split; [reflexivity|]; first [done | apply handler_prints]).
  - destruct (everybody (srv w)); simplify_eq; cbn; by exists [].
  - destruct (log_participants parse msg (Some c) (srv w)) as [e|[s' lines]];
      simplify_eq; cbn; eexists; (split; [reflexivity|]);
      [apply handler_prints | apply map_Stdout_prints].
Qed.

Lemma run_out ls w w' :
  run parse ls w = Some w' →
  ∃ evs, out w' = out w ++ evs ∧ forallb is_print evs = true.
Proof.
  revert w; induction ls as [|l ls IH]; intros w H; cbn in H.
  - simplify_eq. exists []. by rewrite app_nil_r.
  - destruct (step parse l w) as [w1|] eqn:H1; [|done]; cbn in H.
    destruct (step_out _ _ _ H1) as (e1 & E1 & P1).
    destruct (IH _ H) as (e2 & E2 & P2).
    exists (e1 ++ e2). rewrite E2, E1, <- app_assoc. split; [done|].
    rewrite forallb_app. by rewrite P1, P2.
Qed.

Lemma delivered_app w evs c :
  forallb is_print evs = true →
  omap (λ e, match e with
             | WsWrite c' text => if Nat.eqb c' c then Some text else None
             | _ => None
             end) (out w ++ evs) = delivered w c.
Proof.
  intros P. rewrite omap_app. unfold delivered.
  rewrite <- (app_nil_r (omap _ (out w))) at 2. f_equal.
  induction evs as [|[] evs IH]; cbn in *; try done; auto.
Qed.

(** No transition writes a frame: what was delivered to a connection stays
    what it was. *)
Lemma run_delivered ls w w' c :
  run parse ls w = Some w' → delivered w' c = delivered w c.
Proof.
  intros H. destruct (run_out _ _ _ H) as (evs & E & P).
  unfold delivered at 1. rewrite E. by apply delivered_app.
Qed.

Lemma reachable_delivered w c : reachable parse w → delivered w c = [].
Proof. intros [ls H]. by rewrite (run_delivered _ _ _ _ H). Qed.

Lemma run_app ls1 ls2 w :
  run parse (ls1 ++ ls2) w = w1 ← run parse ls1 w; run parse ls2 w1.
Proof.
  revert w; induction ls1 as [|l ls1 IH]; intros w; cbn; [done|].
  destruct (step parse l w); cbn; auto.
Qed.

(** One turn of the loop when both slots are occupied: the frame is
    printed, never parsed. *)
Lemma frame_paired c msg w :
  threads w !! c = Some at_read → everybody (srv w) = true →
  frame parse c msg w = Some (set_pc c at_read [Stdout msg] w).
Proof.
  intros Hc He. unfold frame, step, client_worker. rewrite Hc; cbn.
  rewrite lookup_insert_eq, He; cbn. rewrite He.
  by rewrite set_pc_set_pc.
Qed.

(** One turn of the loop when a slot is empty. *)
Lemma frame_unpaired c msg w :
  threads w !! c = Some at_read → everybody (srv w) = false →
  frame parse c msg w =
  Some match log_participants parse msg (Some c) (srv w) with
       | inr (s', lines) =>
           {| srv := s'; threads := <[c := at_read]> (threads w);
              out := out w ++ Stdout msg :: map Stdout lines |}
       | inl e => set_pc c returned (Stdout msg :: handler e) w
       end.
Proof.
  intros Hc He. unfold frame, step, client_worker. rewrite Hc; cbn.
  rewrite lookup_insert_eq, He; cbn. rewrite He, lookup_insert_eq; cbn.
  destruct (log_participants parse msg (Some c) (srv w)) as [e|[s' lines]]; cbn.
  - by rewrite !set_pc_set_pc.
  - by rewrite !insert_insert_eq, app_nil_r, <- app_assoc.
Qed.

Lemma step_Recv_srv c msg w w' :
  step parse (Recv c msg) w = Some w' → srv w' = srv w.
Proof.
  unfold step, launch, client_worker.
  destruct (threads w !! c) as [[]|]; intros; by simplify_eq.
Qed.

Lemma step_Check_srv c w w' :
  step parse (Check c) w = Some w' → srv w' = srv w.
Proof.
  unfold step, launch, client_worker. destruct (threads w !! c) as [[]|]; try done.
  destruct (everybody (srv w)); intros; by simplify_eq.
Qed.

(** [frame] is the run of its labels. *)
Lemma frame_run c msg w :
  frame parse c msg w =
  run parse (if everybody (srv w) then [Recv c msg; Check c] else send c msg) w.
Proof.
  unfold frame, send.
  destruct (step parse (Recv c msg) w) as [w1|] eqn:H1; cbn.
  - pose proof (step_Recv_srv _ _ _ _ H1) as Hs1.
    destruct (step parse (Check c) w1) as [w2|] eqn:H2; cbn.
    + pose proof (step_Check_srv _ _ _ H2) as Hs2. rewrite Hs2, Hs1.
      destruct (everybody (srv w)); cbn; rewrite H1; cbn; rewrite H2; cbn;
        [done | by destruct (step parse (Log c) w2)].
    + destruct (everybody (srv w)); cbn; rewrite H1; cbn; by rewrite H2.
  - destruct (everybody (srv w)); cbn; by rewrite H1.
Qed.

(** What follows a turn of the loop in an execution is an execution. *)
Lemma reachable_frame_run ls c msg ls' w w' w'' :
  run parse ls initial = Some w → frame parse c msg w = Some w' →
  run parse ls' w' = Some w'' → reachable parse w''.
Proof.
  intros Hrun Hf Hrun'.
  exists (ls ++ (if everybody (srv w) then [Recv c msg; Check c] else send c msg)
             ++ ls').
  rewrite run_app, Hrun.
  change (run parse ((if everybody (srv w) then [Recv c msg; Check c]
                      else send c msg) ++ ls') w = Some w'').
  by rewrite run_app, <- frame_run, Hf.
Qed.

(** What [log_participants] does, by the [role] member of the frame. *)
Lemma log_participants_role buf socket s :
  log_participants parse buf socket s =
  match parse buf with
  | None => inl parse_failure
  | Some v =>
      match Json.as_object v with
      | None => inl not_an_object
      | Some _ =>
          match role_of parse buf with
          | None => inl not_a_string
          | Some role =>
              if String.eqb role "sender" then
                inr ({| addr := addr s; port := port s;
                        sender := set_ws socket (sender s);
                        viewer := viewer s |}, ["Sender is logged"])
              else if String.eqb role "viewer" then
                inr ({| addr := addr s; port := port s;
                        sender := sender s;
                        viewer := set_ws socket (viewer s) |},
                     ["Viewer is logged"])
              else inr (s, [])
          end
      end
  end.
Proof.
  unfold log_participants, role_of, field.
  destruct (parse buf) as [v|]; cbn; [|done].
  destruct (Json.as_object v) as [ms|]; cbn; [|done].
  by destruct (Json.as_string (Json.index ms "role")).
Qed.

(** A frame with a [type] string parsed and is an object. *)
Lemma type_of_Some buf t :
  type_of parse buf = Some t →
  ∃ v ms, parse buf = Some v ∧ Json.as_object v = Some ms.
Proof.
  unfold type_of, field. destruct (parse buf) as [v|]; cbn; [|done].
  destruct (Json.as_object v) as [ms|] eqn:E; cbn; [|done]. intros _. eauto.
Qed.

(** So a frame with a [type] and without a [role] string makes
    [log_participants] raise at [as_string]. *)
Lemma log_participants_no_role buf t socket s :
  type_of parse buf = Some t → role_of parse buf = None →
  log_participants parse buf socket s = inl not_a_string.
Proof.
  intros Ht Hr. destruct (type_of_Some _ _ Ht) as (v & ms & Hv & Hms).
  by rewrite log_participants_role, Hv, Hms, Hr.
Qed.

End Facts.

Section Frames.

Variable parse : string → option Json.value.

Lemma worker_holds_set_pc c p evs w c' :
  worker_holds (set_pc c p evs w) c' =
  if decide (c = c')
  then match p with returned => false | _ => true end
  else worker_holds w c'.
Proof.
  unfold worker_holds, set_pc; cbn. rewrite lookup_insert.
  by destruct (decide (c = c')).
Qed.

Lemma delivered_set_pc c p evs w c' :
  forallb is_print evs = true →
  delivered (set_pc c p evs w) c' = delivered w c'.
Proof. intros P. unfold delivered at 1; cbn. by apply delivered_app. Qed.

Lemma log_participants_malformed msg e socket s :
  malformed parse msg = Some e →
  log_participants parse msg socket s = inl e.
Proof.
  unfold malformed, log_participants. destruct (parse msg) as [v|]; [|congruence].
  destruct (Json.as_object v); [done|congruence].
Qed.

Lemma log_participants_join msg r socket s :
  role_of parse msg = Some (role_name r) →
  log_participants parse msg socket s =
  inr (match r with
       | SENDER => {| addr := addr s; port := port s;
                      sender := set_ws socket (sender s); viewer := viewer s |}
       | VIEWER => {| addr := addr s; port := port s;
                      sender := sender s; viewer := set_ws socket (viewer s) |}
       end, [logged_line r]).
Proof.
  intros Hr. rewrite log_participants_role, Hr.
  assert (∃ v ms, parse msg = Some v ∧ Json.as_object v = Some ms)
    as (v & ms & -> & ->).
  { unfold role_of, field in Hr. destruct (parse msg) as [v|]; [|done].
    cbn in Hr. destruct (Json.as_object v) as [ms|] eqn:E; [|done]. eauto. }
  by destruct r.
Qed.

Lemma log_participants_other msg role socket s :
  role_of parse msg = Some role → role ≠ "sender" → role ≠ "viewer" →
  log_participants parse msg socket s = inr (s, []).
Proof.
  intros Hr Hs Hv. rewrite log_participants_role, Hr.
  assert (∃ v ms, parse msg = Some v ∧ Json.as_object v = Some ms)
    as (v & ms & -> & ->).
  { unfold role_of, field in Hr. destruct (parse msg) as [v|]; [|done].
    cbn in Hr. destruct (Json.as_object v) as [ms|] eqn:E; [|done]. eauto. }
  apply String.eqb_neq in Hs, Hv. by rewrite Hs, Hv.
Qed.

(** A frame on which [log_participants] raises [e], while a slot is empty:
    the worker returns, the server is as before. *)
Lemma frame_raises c msg e w :
  threads w !! c = Some at_read → everybody (srv w) = false →
  log_participants parse msg (Some c) (srv w) = inl e →
  frame parse c msg w = Some (set_pc c returned (Stdout msg :: handler e) w).
Proof. intros Hc He Hl. by rewrite frame_unpaired, Hl. Qed.

End Frames.

(** ** C10: a role that is neither sender nor viewer *)

(** C10.  While a slot is empty, a frame that parses as a JSON object whose
    [role] member is a string other than [sender] and [viewer] leaves the
    server as it is: [log_participants] returns normally, prints nothing and
    changes neither slot, and the turn of the loop that calls it only prints
    the frame and goes back to reading. *)
Theorem C10_other_role_changes_no_slot
    (parse : string → option Json.value) (w : world) (c : conn)
    (buf : string) (members : list (string * Json.value)) (role : string) :
  threads w !! c = Some at_read →
  everybody (srv w) = false →
  parse buf = Some (Json.Object members) →
  Json.find "role" members = Some (Json.Str role) →
  role ≠ "sender" → role ≠ "viewer" →
  log_participants parse buf (Some c) (srv w) = inr (srv w, [])
  ∧ ∃ w', frame parse c buf w = Some w'
          ∧ sender (srv w') = sender (srv w)
          ∧ viewer (srv w') = viewer (srv w)
          ∧ threads w' !! c = Some at_read
          ∧ out w' = out w ++ [Stdout buf].
Proof.
  intros Hc He Hp Hf Hs Hv.
  assert (role_of parse buf = Some role) as Hr.
  { unfold role_of, field, Json.index. rewrite Hp; cbn. by rewrite Hf. }
  pose proof (log_participants_other parse buf role (Some c) (srv w) Hr Hs Hv) as Hl.
  split; [done|].
  rewrite frame_unpaired, Hl by done.
  eexists; split; [reflexivity|]; cbn.
  by rewrite lookup_insert_eq.
Qed.

Lemma C10_witness :
  let w := world_after (connect 1) in
  let buf := join_text "admin" in
  log_participants Json.parse buf (Some 1) (srv w) = inr (srv w, [])
  ∧ ∃ w', frame Json.parse 1 buf w = Some w'
          ∧ sender (srv w') = sender (srv w)
          ∧ viewer (srv w') = viewer (srv w)
          ∧ threads w' !! 1 = Some at_read
          ∧ out w' = out w ++ [Stdout buf].
Proof.
  apply (C10_other_role_changes_no_slot Json.parse (world_after (connect 1)) 1
           (join_text "admin")
           [("type", Json.Str "join"); ("role", Json.Str "admin")] "admin");
    [vm_compute; reflexivity .. | discriminate | discriminate].
Defined.

(** ** C1: an OFFER of the sender *)

(** Counterexample to C1 on scenario A: both roles end up registered, the
    viewer on connection 2, and the offer was not written to connection 2;
    nothing was. *)
Lemma C1_scenario_A_offer_not_delivered :
  ∃ w, run Json.parse scenario_A initial = Some w
       ∧ ws (sender (srv w)) = Some 1
       ∧ ws (viewer (srv w)) = Some 2
       ∧ (offer_text "v=0..." ∉ delivered w 2)
       ∧ delivered w 2 = [].
Proof.
  exists (world_after scenario_A).
  split; [vm_compute; reflexivity|].
  split; [vm_compute; reflexivity|].
  split; [vm_compute; reflexivity|].
  assert (delivered (world_after scenario_A) 2 = []) as E
    by (vm_compute; reflexivity).
  rewrite E. split; [apply not_elem_of_nil | reflexivity].
Qed.

(** C1, as the code has it.  In every execution, when the connection
    registered as sender sends an OFFER (a frame with [type] offer and no
    [role] string), the offer is not relayed: the turn of the loop writes no
    frame, leaves both slots as they are, and no later transition writes a
    frame to any connection either, the viewer's JOIN included.  With the
    viewer slot occupied the offer is printed and the worker reads on; with
    the viewer slot empty nothing is held back for the viewer: the frame is
    printed, [log_participants] raises on the missing [role] and the worker
    of the sender returns. *)
Theorem C1_offer_is_never_relayed
    (parse : string → option Json.value) (ls : list label) (w : world)
    (c : conn) (msg : string) :
  run parse ls initial = Some w →
  ws (sender (srv w)) = Some c →
  threads w !! c = Some at_read →
  type_of parse msg = Some "offer" →
  role_of parse msg = None →
  ∃ w', frame parse c msg w = Some w'
        ∧ srv w' = srv w
        ∧ (if empty (viewer (srv w))
           then threads w' !! c = Some returned
                ∧ out w' = out w ++ [Stdout msg; Stderr not_a_string]
           else threads w' !! c = Some at_read
                ∧ out w' = out w ++ [Stdout msg])
        ∧ ∀ ls' w'', run parse ls' w' = Some w'' → ∀ c', delivered w'' c' = [].
Proof.
  intros Hrun Hsender Hc Ht Hr.
  assert (everybody (srv w) = negb (empty (viewer (srv w)))) as He
    by (unfold everybody, empty; rewrite Hsender; done).
  assert (∃ w', frame parse c msg w = Some w' ∧ srv w' = srv w
                ∧ (if empty (viewer (srv w))
                   then threads w' !! c = Some returned
                        ∧ out w' = out w ++ [Stdout msg; Stderr not_a_string]
                   else threads w' !! c = Some at_read
                        ∧ out w' = out w ++ [Stdout msg]))
    as (w' & Hf & Hs & Hcase).
  { destruct (empty (viewer (srv w))); cbn in He.
    - rewrite (frame_raises parse c msg not_a_string) by
        eauto using log_participants_no_role.
      eexists; split; [reflexivity|]; cbn. by rewrite lookup_insert_eq.
    - rewrite frame_paired by done.
      eexists; split; [reflexivity|]; cbn. by rewrite lookup_insert_eq. }
  exists w'. repeat split; try done.
  intros ls' w'' Hrun' c'.
  apply (reachable_delivered parse). eauto using reachable_frame_run.
Qed.

Lemma C1_witness :
  let w := world_after (connect 1 ++ send 1 (join_text "sender")) in
  let msg := offer_text "v=0..." in
  ∃ w', frame Json.parse 1 msg w = Some w'
        ∧ srv w' = srv w
        ∧ (if empty (viewer (srv w))
           then threads w' !! 1 = Some returned
                ∧ out w' = out w ++ [Stdout msg; Stderr not_a_string]
           else threads w' !! 1 = Some at_read
                ∧ out w' = out w ++ [Stdout msg])
        ∧ ∀ ls' w'', run Json.parse ls' w' = Some w'' →
                     ∀ c', delivered w'' c' = [].
Proof.
  apply (C1_offer_is_never_relayed Json.parse
           (connect 1 ++ send 1 (join_text "sender")));
    vm_compute; reflexivity.
Defined.

(** ** C5: an ANSWER of the viewer *)

(** Counterexample to C5: the sender slot is occupied by connection 1 when
    the viewer answers, and the answer is not written to connection 1. *)
Lemma C5_answer_not_forwarded :
  ∃ w0 w,
    run Json.parse (connect 1 ++ send 1 (join_text "sender")
                    ++ connect 2 ++ send 2 (join_text "viewer")) initial = Some w0
    ∧ ws (sender (srv w0)) = Some 1 ∧ ws (viewer (srv w0)) = Some 2
    ∧ frame Json.parse 2 (answer_text "v=0...") w0 = Some w
    ∧ run Json.parse answer_when_paired initial = Some w
    ∧ (answer_text "v=0..." ∉ delivered w 1).
Proof.
  exists (world_after (connect 1 ++ send 1 (join_text "sender")
                       ++ connect 2 ++ send 2 (join_text "viewer"))),
         (world_after answer_when_paired).
  repeat (split; [vm_compute; reflexivity|]).
  assert (delivered (world_after answer_when_paired) 1 = []) as E
    by (vm_compute; reflexivity).
  rewrite E. apply not_elem_of_nil.
Qed.

(** C5, as the code has it.  In every execution, when the connection
    registered as viewer sends an ANSWER (a frame with [type] answer and no
    [role] string), the answer is forwarded to nobody, whether the sender
    slot is occupied or not: the turn of the loop writes no frame and leaves
    both slots as they are, the answer is kept nowhere, and no later
    transition writes a frame to any connection, a later JOIN of a sender
    included.  With the sender slot occupied the answer is printed and the
    worker reads on; with the sender slot empty the frame is printed,
    [log_participants] raises on the missing [role] and the worker of the
    viewer returns. *)
Theorem C5_answer_is_never_forwarded
    (parse : string → option Json.value) (ls : list label) (w : world)
    (c : conn) (msg : string) :
  run parse ls initial = Some w →
  ws (viewer (srv w)) = Some c →
  threads w !! c = Some at_read →
  type_of parse msg = Some "answer" →
  role_of parse msg = None →
  ∃ w', frame parse c msg w = Some w'
        ∧ srv w' = srv w
        ∧ (if empty (sender (srv w))
           then threads w' !! c = Some returned
                ∧ out w' = out w ++ [Stdout msg; Stderr not_a_string]
           else threads w' !! c = Some at_read
                ∧ out w' = out w ++ [Stdout msg])
        ∧ ∀ ls' w'', run parse ls' w' = Some w'' → ∀ c', delivered w'' c' = [].
Proof.
  intros Hrun Hviewer Hc Ht Hr.
  assert (everybody (srv w) = negb (empty (sender (srv w)))) as He.
  { unfold everybody, empty. rewrite Hviewer. by destruct (ws (sender (srv w))). }
  assert (∃ w', frame parse c msg w = Some w' ∧ srv w' = srv w
                ∧ (if empty (sender (srv w))
                   then threads w' !! c = Some returned
                        ∧ out w' = out w ++ [Stdout msg; Stderr not_a_string]
                   else threads w' !! c = Some at_read
                        ∧ out w' = out w ++ [Stdout msg]))
    as (w' & Hf & Hs & Hcase).
  { destruct (empty (sender (srv w))); cbn in He.
    - rewrite (frame_raises parse c msg not_a_string) by
        eauto using log_participants_no_role.
      eexists; split; [reflexivity|]; cbn. by rewrite lookup_insert_eq.
    - rewrite frame_paired by done.
      eexists; split; [reflexivity|]; cbn. by rewrite lookup_insert_eq. }
  exists w'. repeat split; try done.
  intros ls' w'' Hrun' c'.
  apply (reachable_delivered parse). eauto using reachable_frame_run.
Qed.

Lemma C5_witness :
  let w := world_after (connect 1 ++ send 1 (join_text "sender")
                        ++ connect 2 ++ send 2 (join_text "viewer")) in
  let msg := answer_text "v=0..." in
  ∃ w', frame Json.parse 2 msg w = Some w'
        ∧ srv w' = srv w
        ∧ (if empty (sender (srv w))
           then threads w' !! 2 = Some returned
                ∧ out w' = out w ++ [Stdout msg; Stderr not_a_string]
           else threads w' !! 2 = Some at_read
                ∧ out w' = out w ++ [Stdout msg])
        ∧ ∀ ls' w'', run Json.parse ls' w' = Some w'' →
                     ∀ c', delivered w'' c' = [].
Proof.
  apply (C5_answer_is_never_forwarded Json.parse
           (connect 1 ++ send 1 (join_text "sender")
            ++ connect 2 ++ send 2 (join_text "viewer")));
    vm_compute; reflexivity.
Defined.

(** ** C4: a frame that is not a signaling envelope *)

(** Counterexample to C4: a connection whose first frame is not JSON.  Its
    worker has returned, and with no slot holding the stream the connection
    is gone. *)
Lemma C4_bad_frame_ends_the_handler :
  ∃ w, run Json.parse (connect 1 ++ send 1 "not json") initial = Some w
       ∧ Json.parse "not json" = None
       ∧ threads w !! 1 = Some returned
       ∧ stream_alive w 1 = false.
Proof.
  exists (world_after (connect 1 ++ send 1 "not json")).
  repeat split; vm_compute; reflexivity.
Qed.

(** C4, as the code has it.  A frame that is not JSON, or is JSON but not an
    object, is dropped without any change to the slots and without anything
    written to a connection.  With both slots occupied it is printed, never
    parsed, and the worker reads on.  With a slot empty the exception of
    [log_participants] ends the worker of that connection: the frame and the
    exception are printed, [client_worker] returns, and the stream stays
    alive only if a slot holds it. *)
Theorem C4_bad_frame_is_dropped_and_may_end_the_handler
    (parse : string → option Json.value) (w : world) (c : conn)
    (msg : string) (e : exn) :
  threads w !! c = Some at_read →
  malformed parse msg = Some e →
  ∃ w', frame parse c msg w = Some w'
        ∧ srv w' = srv w
        ∧ (∀ c', delivered w' c' = delivered w c')
        ∧ (if everybody (srv w)
           then threads w' !! c = Some at_read
                ∧ out w' = out w ++ [Stdout msg]
           else threads w' !! c = Some returned
                ∧ out w' = out w ++ [Stdout msg; Stderr e]
                ∧ stream_alive w' c = slot_holds w c).
Proof.
  intros Hc Hm.
  assert (handler e = [Stderr e]) as Hh
    by (unfold malformed in Hm; destruct (parse msg) as [v|];
        [destruct (Json.as_object v)|]; by simplify_eq).
  destruct (everybody (srv w)) eqn:He.
  - rewrite frame_paired by done.
    eexists; split; [reflexivity|].
    split; [done|]. split; [intros c'; by apply delivered_set_pc|].
    split; [apply lookup_insert_eq | done].
  - rewrite (frame_raises parse c msg e) by
      eauto using log_participants_malformed.
    eexists; split; [reflexivity|]. rewrite Hh.
    split; [done|]. split; [intros c'; by apply delivered_set_pc|].
    split; [apply lookup_insert_eq|]. split; [done|].
    unfold stream_alive. rewrite worker_holds_set_pc.
    by destruct (decide (c = c)).
Qed.

Lemma C4_witness :
  let w := world_after (connect 1) in
  ∃ w', frame Json.parse 1 "not json" w = Some w'
        ∧ srv w' = srv w
        ∧ (∀ c', delivered w' c' = delivered w c')
        ∧ (if everybody (srv w)
           then threads w' !! 1 = Some at_read
                ∧ out w' = out w ++ [Stdout "not json"]
           else threads w' !! 1 = Some returned
                ∧ out w' = out w ++ [Stdout "not json"; Stderr parse_failure]
                ∧ stream_alive w' 1 = slot_holds w 1).
Proof.
  apply (C4_bad_frame_is_dropped_and_may_end_the_handler Json.parse
           (world_after (connect 1)) 1 "not json" parse_failure);
    vm_compute; reflexivity.
Defined.

(** ** C6: a connection disconnects *)

(** Counterexample to C6: the sender joins and then closes its connection.
    Its worker returns, and the sender slot still holds the connection. *)
Lemma C6_slot_not_cleared_on_close :
  ∃ w, run Json.parse (connect 1 ++ send 1 (join_text "sender") ++ [Closed 1])
         initial = Some w
       ∧ threads w !! 1 = Some returned
       ∧ ws (sender (srv w)) = Some 1.
Proof.
  exists (world_after (connect 1 ++ send 1 (join_text "sender") ++ [Closed 1])).
  repeat split; vm_compute; reflexivity.
Qed.

(** C6, as the code has it.  When the read of a connection ends with the
    close of the websocket or with a transport error, its worker prints and
    returns and changes no slot: the slot of its own role is not cleared,
    also when the connection is still its occupant, and the slot of the
    counterpart is as before.  The server has no queue that could be
    discarded.  The stream stays alive exactly if a slot holds it. *)
Theorem C6_disconnect_changes_no_slot
    (parse : string → option Json.value) (w : world) (c : conn) (l : label) :
  l = Closed c ∨ l = Failed c →
  threads w !! c = Some at_read →
  ∃ w', step parse l w = Some w'
        ∧ srv w' = srv w
        ∧ threads w' !! c = Some returned
        ∧ out w' = out w ++ handler (match l with
                                     | Closed _ => closed
                                     | _ => ws_failure
                                     end)
        ∧ (∀ r, occupant (slot r (srv w')) c = occupant (slot r (srv w)) c)
        ∧ stream_alive w' c = slot_holds w c.
Proof.
  intros [-> | ->] Hc; unfold step, launch, client_worker; rewrite Hc;
    (eexists; split; [reflexivity|]);
    (split; [done|]); (split; [apply lookup_insert_eq|]);
    (split; [done|]); (split; [done|]);
    unfold stream_alive; rewrite worker_holds_set_pc;
    by destruct (decide (c = c)).
Qed.

Lemma C6_witness :
  let w := world_after (connect 1 ++ send 1 (join_text "sender")) in
  ∃ w', step Json.parse (Closed 1) w = Some w'
        ∧ srv w' = srv w
        ∧ threads w' !! 1 = Some returned
        ∧ out w' = out w ++ handler closed
        ∧ (∀ r, occupant (slot r (srv w')) 1 = occupant (slot r (srv w)) 1)
        ∧ stream_alive w' 1 = slot_holds w 1.
Proof.
  apply (C6_disconnect_changes_no_slot Json.parse
           (world_after (connect 1 ++ send 1 (join_text "sender"))) 1 (Closed 1));
    [left; reflexivity | vm_compute; reflexivity].
Defined.

(** ** C7: a connection that has not joined *)

Section Unregistered.

Variable parse : string → option Json.value.

Lemma occupant_set_ws c' s c : occupant (set_ws (Some c') s) c = Nat.eqb c' c.
Proof. done. Qed.

(** Only the worker of [c] can put [c] into a slot. *)
Lemma step_unregistered l w w' c :
  step parse l w = Some w' → l ≠ Log c →
  slot_holds w c = false → slot_holds w' c = false.
Proof.
  intros H Hl Hu.
  destruct l as [c'|c'|c'|c' msg|c'|c'|c']; unfold step, launch, client_worker in H;
    destruct (threads w !! c') as [[]|] eqn:Hc; simplify_eq; try done.
  - by destruct (everybody (srv w)); simplify_eq.
  - assert (c' ≠ c) as Hne by congruence.
    apply Nat.eqb_neq in Hne.
    unfold log_participants in H.
    destruct (parse msg) as [v|]; [|by simplify_eq].
    destruct (Json.as_object v) as [ms|]; [|by simplify_eq].
    destruct (Json.as_string (Json.index ms "role")) as [role|]; [|by simplify_eq].
    unfold slot_holds in *. apply orb_false_iff in Hu as [Hu1 Hu2].
    destruct (String.eqb role "sender"); [|destruct (String.eqb role "viewer")];
      simplify_eq; cbn; rewrite ?occupant_set_ws, ?Hne, ?Hu1, ?Hu2; done.
Qed.

Lemma run_unregistered ls w w' c :
  run parse ls w = Some w' → Log c ∉ ls →
  slot_holds w c = false → slot_holds w' c = false.
Proof.
  revert w; induction ls as [|l ls IH]; intros w H Hl Hu; cbn in H.
  - by simplify_eq.
  - destruct (step parse l w) as [w1|] eqn:H1; [|done]; cbn in H.
    apply not_elem_of_cons in Hl as [Hl1 Hl2].
    eapply IH; eauto using step_unregistered.
Qed.

(** The slots hold accepted connections only. *)
Lemma reachable_unregistered w c :
  reachable parse w → threads w !! c = None → slot_holds w c = false.
Proof.
  intros [ls H]. revert w H.
  induction ls as [|l ls IH] using rev_ind; intros w H Hc.
  - cbn in H. by simplify_eq.
  - rewrite run_app in H.
    destruct (run parse ls initial) as [w0|] eqn:H0; [|done]; cbn in H.
    destruct (step parse l w0) as [w1|] eqn:H1; [|done]; cbn in H; simplify_eq.
    assert (threads w0 !! c = None ∧ l ≠ Log c) as [Hc0 Hl].
    { destruct l as [c'|c'|c'|c' msg|c'|c'|c'];
        unfold step, launch, client_worker in H1;
        destruct (threads w0 !! c') as [[]|] eqn:Hc'; simplify_eq;
        try (destruct (everybody (srv w0)); simplify_eq);
        try (destruct (log_participants parse msg (Some c') (srv w0))
               as [e|[s' lines]]; simplify_eq);
        cbn in Hc; apply lookup_insert_None in Hc as [Hc Hne];
        (split; [done | congruence]). }
    eauto using step_unregistered.
Qed.

End Unregistered.

(** Counterexample to C7: a connection that has not joined sends an offer
    while the slots are empty.  The registry is unchanged, but the worker of
    the connection has returned and nothing holds its stream: the connection
    is not kept open for another try. *)
Lemma C7_non_join_ends_the_handler :
  ∃ w, run Json.parse (connect 1 ++ send 1 (offer_text "v=0...")) initial = Some w
       ∧ srv w = server_default
       ∧ threads w !! 1 = Some returned
       ∧ stream_alive w 1 = false.
Proof.
  exists (world_after (connect 1 ++ send 1 (offer_text "v=0..."))).
  repeat split; vm_compute; reflexivity.
Qed.

(** C7, as the code has it.  A connection is in no slot until its own worker
    passes a frame to [log_participants].  The server reads the [role]
    member only: a frame of a connection that is in no slot whose [role] is
    not the string sender or viewer is discarded, changes no slot and writes
    nothing.  The connection is kept open and read on when both slots are
    occupied or the [role] is some other string; with a slot empty and no
    [role] string the worker returns and the stream is destroyed. *)
Theorem C7_unregistered_frame_without_role
    (parse : string → option Json.value) (w : world) (c : conn) (msg : string) :
  threads w !! c = Some at_read →
  slot_holds w c = false →
  role_of parse msg ≠ Some "sender" →
  role_of parse msg ≠ Some "viewer" →
  (∀ ls w1, run parse ls w = Some w1 → Log c ∉ ls → slot_holds w1 c = false)
  ∧ ∃ w', frame parse c msg w = Some w'
          ∧ srv w' = srv w
          ∧ (∀ c', delivered w' c' = delivered w c')
          ∧ (if everybody (srv w)
             then threads w' !! c = Some at_read ∧ stream_alive w' c = true
             else match role_of parse msg with
                  | Some _ =>
                      threads w' !! c = Some at_read ∧ stream_alive w' c = true
                  | None =>
                      threads w' !! c = Some returned ∧ stream_alive w' c = false
                  end).
Proof.
  intros Hc Hu Hs Hv.
  split; [eauto using run_unregistered|].
  destruct (everybody (srv w)) eqn:He.
  - rewrite frame_paired by done.
    eexists; split; [reflexivity|].
    split; [done|]. split; [intros c'; by apply delivered_set_pc|].
    split; [apply lookup_insert_eq|].
    unfold stream_alive. rewrite worker_holds_set_pc.
    by destruct (decide (c = c)).
  - rewrite frame_unpaired by done.
    destruct (role_of parse msg) as [role|] eqn:Hr.
    + rewrite (log_participants_other parse msg role) by congruence.
      eexists; split; [reflexivity|].
      split; [done|]. split.
      { intros c'. unfold delivered at 1; cbn. by apply delivered_app. }
      split; [apply lookup_insert_eq|].
      unfold stream_alive, worker_holds; cbn. by rewrite lookup_insert_eq.
    + assert (∃ e, log_participants parse msg (Some c) (srv w) = inl e
                   ∧ handler e = [Stderr e]) as (e & -> & Hh).
      { rewrite log_participants_role, Hr.
        destruct (parse msg) as [v|]; [|by eexists].
        destruct (Json.as_object v); by eexists. }
      eexists; split; [reflexivity|].
      split; [done|]. split.
      { intros c'. apply delivered_set_pc. by rewrite Hh. }
      split; [apply lookup_insert_eq|].
      unfold stream_alive. rewrite worker_holds_set_pc.
      destruct (decide (c = c)); [|done]. by rewrite orb_false_l.
Qed.

Lemma C7_witness :
  let w := world_after (connect 1) in
  let msg := offer_text "v=0..." in
  (∀ ls w1, run Json.parse ls w = Some w1 → Log 1 ∉ ls →
             slot_holds w1 1 = false)
  ∧ ∃ w', frame Json.parse 1 msg w = Some w'
          ∧ srv w' = srv w
          ∧ (∀ c', delivered w' c' = delivered w c')
          ∧ (if everybody (srv w)
             then threads w' !! 1 = Some at_read ∧ stream_alive w' 1 = true
             else match role_of Json.parse msg with
                  | Some _ =>
                      threads w' !! 1 = Some at_read ∧ stream_alive w' 1 = true
                  | None =>
                      threads w' !! 1 = Some returned ∧ stream_alive w' 1 = false
                  end).
Proof.
  apply (C7_unregistered_frame_without_role Json.parse
           (world_after (connect 1)) 1 (offer_text "v=0..."));
    [vm_compute; reflexivity | vm_compute; reflexivity
    | vm_compute; discriminate | vm_compute; discriminate].
Defined.

(** ** C8: a type the protocol does not know *)

(** Counterexample to C8, on two frames of type [ping] received while the
    slots are empty.  The first has no [role]: the worker of the connection
    returns and the stream is destroyed, so the connection does not stay
    open.  The second carries [role] sender: the connection is registered as
    sender, so the registry changes. *)
Lemma C8_unknown_type_not_ignored :
  (∃ w, run Json.parse (connect 1 ++ send 1 ping_text) initial = Some w
        ∧ type_of Json.parse ping_text = Some "ping"
        ∧ threads w !! 1 = Some returned
        ∧ stream_alive w 1 = false)
  ∧ (∃ w, run Json.parse (connect 1 ++ send 1 (ping_role_text "sender")) initial
          = Some w
          ∧ type_of Json.parse (ping_role_text "sender") = Some "ping"
          ∧ ws (sender (srv w)) = Some 1).
Proof.
  split.
  - exists (world_after (connect 1 ++ send 1 ping_text)).
    repeat split; vm_compute; reflexivity.
  - exists (world_after (connect 1 ++ send 1 (ping_role_text "sender"))).
    repeat split; vm_compute; reflexivity.
Qed.

(** C8, as the code has it.  The server never reads the [type] member.  A
    frame whose [type] is none of join, offer, answer and candidate is
    printed, and no frame is written in response.  With both slots occupied
    nothing else happens and the worker reads on.  With a slot empty the
    frame is handled by its [role] member like any other frame: without a
    [role] string the slots are unchanged and the worker returns; with
    [role] sender or viewer the connection is put into that slot; with any
    other [role] string the slots are unchanged; in the last two cases the
    worker reads on. *)
Theorem C8_unknown_type_is_handled_by_role
    (parse : string → option Json.value) (w : world) (c : conn)
    (msg t : string) :
  threads w !! c = Some at_read →
  type_of parse msg = Some t →
  t ≠ "join" → t ≠ "offer" → t ≠ "answer" → t ≠ "candidate" →
  ∃ w', frame parse c msg w = Some w'
        ∧ (∀ c', delivered w' c' = delivered w c')
        ∧ (∃ evs, out w' = out w ++ Stdout msg :: evs)
        ∧ (if everybody (srv w)
           then srv w' = srv w ∧ threads w' !! c = Some at_read
           else match role_of parse msg with
                | None => srv w' = srv w ∧ threads w' !! c = Some returned
                | Some role =>
                    threads w' !! c = Some at_read
                    ∧ (role = "sender" →
                       ws (sender (srv w')) = Some c
                       ∧ viewer (srv w') = viewer (srv w))
                    ∧ (role = "viewer" →
                       ws (viewer (srv w')) = Some c
                       ∧ sender (srv w') = sender (srv w))
                    ∧ (role ≠ "sender" → role ≠ "viewer" → srv w' = srv w)
                end).
Proof.
  intros Hc Ht _ _ _ _.
  destruct (everybody (srv w)) eqn:He.
  - rewrite frame_paired by done.
    eexists; split; [reflexivity|].
    split; [intros c'; by apply delivered_set_pc|].
    split; [by exists []|]. split; [done | apply lookup_insert_eq].
  - rewrite frame_unpaired by done.
    destruct (role_of parse msg) as [role|] eqn:Hr.
    + destruct (type_of_Some _ _ _ Ht) as (v & ms & Hv & Hms).
      rewrite log_participants_role, Hv, Hms, Hr.
      destruct (String.eqb role "sender") eqn:E1;
        [|destruct (String.eqb role "viewer") eqn:E2];
        (eexists; split; [reflexivity|]);
        (split; [intros c'; unfold delivered at 1; cbn; by apply delivered_app|]);
        (split; [by eexists|]); (split; [apply lookup_insert_eq|]); cbn.
      * apply String.eqb_eq in E1 as ->. repeat split; try done.
      * apply String.eqb_eq in E2 as ->. repeat split; try done.
      * apply String.eqb_neq in E1, E2. repeat split; try done.
    + rewrite (log_participants_no_role parse msg t) by done.
      eexists; split; [reflexivity|].
      split; [intros c'; by apply delivered_set_pc|].
      split; [by eexists|]. split; [done | apply lookup_insert_eq].
Qed.

Lemma C8_witness :
  let w := world_after (connect 1) in
  let msg := ping_role_text "sender" in
  ∃ w', frame Json.parse 1 msg w = Some w'
        ∧ (∀ c', delivered w' c' = delivered w c')
        ∧ (∃ evs, out w' = out w ++ Stdout msg :: evs)
        ∧ (if everybody (srv w)
           then srv w' = srv w ∧ threads w' !! 1 = Some at_read
           else match role_of Json.parse msg with
                | None => srv w' = srv w ∧ threads w' !! 1 = Some returned
                | Some role =>
                    threads w' !! 1 = Some at_read
                    ∧ (role = "sender" →
                       ws (sender (srv w')) = Some 1
                       ∧ viewer (srv w') = viewer (srv w))
                    ∧ (role = "viewer" →
                       ws (viewer (srv w')) = Some 1
                       ∧ sender (srv w') = sender (srv w))
                    ∧ (role ≠ "sender" → role ≠ "viewer" → srv w' = srv w)
                end).
Proof.
  apply (C8_unknown_type_is_handled_by_role Json.parse
           (world_after (connect 1)) 1 (ping_role_text "sender") "ping");
    [vm_compute; reflexivity | vm_compute; reflexivity
    | discriminate | discriminate | discriminate | discriminate].
Defined.

(** ** C2: a JOIN for a role *)

(** Counterexample to C2.  Two connections join as sender one after the
    other: the slot passes to the second, and the first is not closed; its
    worker still reads it.  And a connection that joins as sender when both
    slots are occupied does not replace the occupant. *)
Lemma C2_join_does_not_close_the_old_connection :
  (∃ w, run Json.parse join_twice initial = Some w
        ∧ ws (sender (srv w)) = Some 2
        ∧ threads w !! 1 = Some at_read
        ∧ stream_alive w 1 = true
        ∧ forallb is_print (out w) = true)
  ∧ (∃ w, run Json.parse join_after_pairing initial = Some w
          ∧ threads w !! 3 = Some at_read
          ∧ ws (sender (srv w)) = Some 1).
Proof.
  split.
  - exists (world_after join_twice). repeat split; vm_compute; reflexivity.
  - exists (world_after join_after_pairing). repeat split; vm_compute; reflexivity.
Qed.

(** C2, as the code has it.  A slot holds at most one connection at any
    instant.  A JOIN for a role that arrives while a slot is empty puts the
    joining connection into the slot of that role, in place of any previous
    occupant, and leaves the other slot as it is; a JOIN that arrives when
    both slots are occupied is printed and changes nothing.  The previous
    occupant is not closed: nothing but the two printed lines is emitted,
    and its stream stays alive as long as its own worker runs or the other
    slot holds it. *)
Theorem C2_join_replaces_the_occupant_without_closing_it
    (parse : string → option Json.value) (w : world) (c : conn) (r : Role)
    (msg : string) :
  threads w !! c = Some at_read →
  type_of parse msg = Some "join" →
  role_of parse msg = Some (role_name r) →
  (∀ r' c1 c2, occupant (slot r' (srv w)) c1 = true →
               occupant (slot r' (srv w)) c2 = true → c1 = c2)
  ∧ ∃ w', frame parse c msg w = Some w'
          ∧ (if everybody (srv w)
             then srv w' = srv w ∧ out w' = out w ++ [Stdout msg]
             else ws (slot r (srv w')) = Some c
                  ∧ slot (counterpart r) (srv w') = slot (counterpart r) (srv w)
                  ∧ out w' = out w ++ [Stdout msg; Stdout (logged_line r)]
                  ∧ ∀ old, ws (slot r (srv w)) = Some old → old ≠ c →
                           stream_alive w' old
                           = worker_holds w old
                             || occupant (slot (counterpart r) (srv w)) old).
Proof.
  intros Hc _ Hr. split.
  { intros r' c1 c2. unfold occupant.
    destruct (ws (slot r' (srv w))) as [c0|]; [|done].
    intros ->%Nat.eqb_eq ->%Nat.eqb_eq. done. }
  destruct (everybody (srv w)) eqn:He.
  - rewrite frame_paired by done. eexists; split; [reflexivity|]. done.
  - rewrite frame_unpaired, (log_participants_join parse msg r) by done.
    eexists; split; [reflexivity|].
    split; [by destruct r|]. split; [by destruct r|]. split; [done|].
    intros old Hold Hne.
    assert (Nat.eqb c old = false) as E by (apply Nat.eqb_neq; congruence).
    unfold stream_alive, worker_holds, slot_holds; cbn.
    rewrite lookup_insert_ne by congruence.
    destruct r; cbn; rewrite E; [done | by rewrite orb_false_r].
Qed.

Lemma C2_witness :
  let w := world_after (connect 1 ++ send 1 (join_text "sender") ++ connect 2) in
  let msg := join_text "sender" in
  (∀ r' c1 c2, occupant (slot r' (srv w)) c1 = true →
               occupant (slot r' (srv w)) c2 = true → c1 = c2)
  ∧ ∃ w', frame Json.parse 2 msg w = Some w'
          ∧ (if everybody (srv w)
             then srv w' = srv w ∧ out w' = out w ++ [Stdout msg]
             else ws (slot SENDER (srv w')) = Some 2
                  ∧ slot (counterpart SENDER) (srv w')
                    = slot (counterpart SENDER) (srv w)
                  ∧ out w' = out w ++ [Stdout msg; Stdout (logged_line SENDER)]
                  ∧ ∀ old, ws (slot SENDER (srv w)) = Some old → old ≠ 2 →
                           stream_alive w' old
                           = worker_holds w old
                             || occupant (slot (counterpart SENDER) (srv w)) old).
Proof.
  apply (C2_join_replaces_the_occupant_without_closing_it Json.parse
           (world_after (connect 1 ++ send 1 (join_text "sender") ++ connect 2))
           2 SENDER (join_text "sender"));
    vm_compute; reflexivity.
Defined.

(** ** C9: after both slots are occupied *)

Section Paired.

Variable parse : string → option Json.value.

(** No transition empties a slot, so [everybody()] stays true. *)
Lemma step_everybody l w w' :
  step parse l w = Some w' → everybody (srv w) = true →
  everybody (srv w') = true.
Proof.
  intros H He.
  destruct l as [c|c|c|c msg|c|c|c]; unfold step, launch, client_worker in H;
    destruct (threads w !! c) as [[]|] eqn:Hc; simplify_eq; try done.
  - rewrite He in H. by simplify_eq.
  - unfold log_participants in H.
    destruct (parse msg) as [v|]; [|by simplify_eq].
    destruct (Json.as_object v) as [ms|]; [|by simplify_eq].
    destruct (Json.as_string (Json.index ms "role")) as [role|]; [|by simplify_eq].
    unfold everybody, empty in *.
    destruct (String.eqb role "sender"); [|destruct (String.eqb role "viewer")];
      simplify_eq; cbn; try done.
    + by destruct (ws (sender (srv w))), (ws (viewer (srv w))).
    + by destruct (ws (sender (srv w))), (ws (viewer (srv w))).
Qed.

Lemma step_settled l w w' :
  step parse l w = Some w' → everybody (srv w) = true → settled w →
  srv w' = srv w ∧ settled w'.
Proof.
  intros H He Hq.
  destruct l as [c|c|c|c msg|c|c|c]; unfold step, launch, client_worker in H;
    destruct (threads w !! c) as [[]|] eqn:Hc; simplify_eq;
    try (by destruct (Hq c msg));
    try rewrite He in H; simplify_eq;
    (split; [done|]); intros c' msg'; cbn;
    rewrite lookup_insert; destruct (decide (c = c')); try done; apply Hq.
Qed.

(** From a state with both slots occupied and no such worker, no execution
    changes a slot. *)
Lemma run_settled ls w w' :
  run parse ls w = Some w' → everybody (srv w) = true → settled w →
  srv w' = srv w.
Proof.
  revert w; induction ls as [|l ls IH]; intros w H He Hq; cbn in H.
  - by simplify_eq.
  - destruct (step parse l w) as [w1|] eqn:H1; [|done]; cbn in H.
    destruct (step_settled _ _ _ H1 He Hq) as [Hs Hq1].
    rewrite <- Hs. apply IH; [done | by rewrite Hs | done].
Qed.

End Paired.

(** C9 at [late_join_race].  After the run both slots are occupied, the
    sender slot by connection 1, and the worker of connection 3 stands
    before [log_participants] with its JOIN.  Its next step overwrites the
    sender slot with connection 3: a slot is written after [everybody()]
    became true. *)
Theorem C9_slot_written_after_everybody :
  ∃ w w', run Json.parse late_join_race initial = Some w
          ∧ everybody (srv w) = true
          ∧ ws (sender (srv w)) = Some 1
          ∧ threads w !! 3 = Some (at_log (join_text "sender"))
          ∧ step Json.parse (Log 3) w = Some w'
          ∧ ws (sender (srv w')) = Some 3.
Proof.
  exists (world_after late_join_race),
         (world_after (late_join_race ++ [Log 3])).
  repeat split; vm_compute; reflexivity.
Qed.

(** ** C3: CANDIDATE messages *)

Section ClientFacts.

Import WebClient.

(** A candidate received while no remote description is set goes to the
    end of the queue and is not handed to the peer connection. *)
Lemma client_buffers c st :
  remoteDescription st = None → well_formed st →
  queue (addRemoteCandidate c st) = queue st ++ [c]
  ∧ added (addRemoteCandidate c st) = added st
  ∧ tasks (addRemoteCandidate c st) = tasks st
  ∧ remoteDescription (addRemoteCandidate c st) = None
  ∧ well_formed (addRemoteCandidate c st).
Proof.
  intros Hrd [q Hq]. unfold addRemoteCandidate, queue, well_formed.
  rewrite Hrd; cbn. rewrite list_lookup_alter_eq, Hq; cbn. eauto 10.
Qed.

Lemma client_buffers_all cs st :
  remoteDescription st = None → well_formed st →
  ∃ st', WebClient.run (map Candidate cs) st = Some st'
         ∧ queue st' = queue st ++ cs
         ∧ added st' = added st
         ∧ tasks st' = tasks st
         ∧ remoteDescription st' = None
         ∧ well_formed st'.
Proof.
  revert st; induction cs as [|c cs IH]; intros st Hrd Hwf; cbn.
  - exists st. by rewrite app_nil_r.
  - destruct (client_buffers c st Hrd Hwf) as (Hq & Ha & Ht & Hrd' & Hwf').
    destruct (IH _ Hrd' Hwf') as (st' & Hrun & Hq' & Ha' & Ht' & Hrd'' & Hwf'').
    exists st'. rewrite Hrun, Hq', Ha', Ht', Hq, Ha, Ht, <- app_assoc. done.
Qed.

(** The for-of of [handleOffer], from the iterator at [k] to the call of
    [createAnswer], when nothing else runs in between: the rest of the
    array is handed over in order, whatever the outcome of each call. *)
Lemma flush_loop n : ∀ k i array q st os,
  arrays st !! array = Some q →
  tasks st !! i = Some (awaits_addIceCandidate array k) →
  length q = k + n → length os = S n →
  ∃ st', WebClient.run (map (Settled i) os) st = Some st'
         ∧ added st' = added st ++ drop k q
         ∧ arrays st' = arrays st ++ [[]]
         ∧ pendingRemoteCandidates st' = length (arrays st)
         ∧ tasks st' = <[i := awaits_createAnswer]> (tasks st)
         ∧ remoteDescription st' = remoteDescription st.
Proof.
  induction n as [|n IH]; intros k i array q st os Hq Ht Hlen Hos.
  - destruct os as [|o [|]]; try done. cbn. rewrite Ht.
    unfold flush_next. rewrite Hq; cbn.
    rewrite (lookup_ge_None_2 q k) by lia.
    eexists; split; [reflexivity|]; cbn.
    rewrite drop_ge, app_nil_r by lia. done.
  - destruct os as [|o os]; [done|]. cbn. rewrite Ht. cbn.
    destruct (lookup_lt_is_Some_2 q k) as [c Hc]; [lia|].
    unfold flush_next. rewrite Hq; cbn. rewrite Hc.
    edestruct (IH (S k) i array q) as (st' & Hrun & Ha & Harr & Hp & Hts & Hrd);
      [ | | | | exists st'; split; [exact Hrun|] ]; cbn.
    + exact Hq.
    + apply list_lookup_insert_eq. by eapply lookup_lt_Some.
    + lia.
    + cbn in Hos; lia.
    + cbn in *. rewrite Ha, Harr, Hp, Hts, Hrd, list_insert_insert_eq.
      rewrite (drop_S q c k Hc), <- app_assoc. done.
Qed.

(** [handleOffer] from its call to its call of [createAnswer], when
    nothing else runs in between. *)
Lemma flush_after_offer sdp v os st :
  well_formed st → length os = length (queue st) →
  ∃ st', WebClient.run (Offer sdp :: Settled (length (tasks st)) (fulfilled v)
                        :: map (Settled (length (tasks st))) os) st = Some st'
         ∧ added st' = added st ++ queue st
         ∧ queue st' = []
         ∧ remoteDescription st' = Some sdp
         ∧ tasks st' = tasks st ++ [awaits_createAnswer].
Proof.
  intros [q Hq] Hos. unfold queue in *. rewrite Hq in *; cbn in Hos.
  cbn [WebClient.run WebClient.step mbind option_bind].
  cbn. rewrite list_lookup_middle by done.
  unfold after_setRemoteDescription, queue; cbn. rewrite Hq; cbn.
  destruct q as [|c q].
  - destruct os; [|done]. cbn.
    eexists; split; [reflexivity|]; cbn. rewrite Hq, app_nil_r; cbn.
    repeat split; try done.
    rewrite insert_app_r_alt, Nat.sub_diag by lia. done.
  - cbn. unfold flush_next; cbn. rewrite Hq; cbn.
    destruct os as [|o os]; [done|].
    edestruct (flush_loop (length q) 1 (length (tasks st))
                 (pendingRemoteCandidates st) (c :: q))
      as (st' & Hrun & Ha & Harr & Hp & Hts & Hrd);
      [ | | | | exists st'; split; [exact Hrun|] ]; cbn.
    + exact Hq.
    + rewrite insert_app_r_alt, Nat.sub_diag by lia.
      by apply list_lookup_middle.
    + done.
    + cbn in Hos; lia.
    + cbn in *. rewrite Ha, Harr, Hp, Hts, Hrd.
      rewrite list_lookup_middle by done. cbn.
      rewrite list_insert_insert_eq, insert_app_r_alt, Nat.sub_diag by lia.
      rewrite drop_0, <- app_assoc. done.
Qed.

(** With an empty queue [handleOffer] goes from [setRemoteDescription] to
    [createAnswer] and touches neither the queue nor the peer
    connection. *)
Lemma flush_of_empty_queue sdp v st :
  queue st = [] →
  ∃ st', WebClient.run [Offer sdp; Settled (length (tasks st)) (fulfilled v)] st
         = Some st'
         ∧ added st' = added st
         ∧ arrays st' = arrays st
         ∧ pendingRemoteCandidates st' = pendingRemoteCandidates st
         ∧ tasks st' = tasks st ++ [awaits_createAnswer].
Proof.
  intros Hq. cbn. rewrite list_lookup_middle by done.
  unfold after_setRemoteDescription. unfold queue in *; cbn. rewrite Hq; cbn.
  eexists; split; [reflexivity|]; cbn. repeat split; try done.
  rewrite insert_app_r_alt, Nat.sub_diag by lia. done.
Qed.

End ClientFacts.

Lemma client_run_app ls1 ls2 st :
  WebClient.run (ls1 ++ ls2) st = st1 ← WebClient.run ls1 st; WebClient.run ls2 st1.
Proof.
  revert st; induction ls1 as [|l ls1 IH]; intros st; cbn; [done|].
  destruct (WebClient.step l st); cbn; auto.
Qed.

(** Counterexample to C3: after the run both slots are occupied, the sender
    slot by connection 2, and the candidate of the viewer was not written to
    connection 2.  The relay kept it nowhere; the worker of the viewer
    returned on it. *)
Lemma C3_candidate_dropped_by_the_relay :
  ∃ w, run Json.parse candidate_before_pairing initial = Some w
       ∧ everybody (srv w) = true
       ∧ ws (sender (srv w)) = Some 2
       ∧ threads w !! 1 = Some returned
       ∧ (candidate_text "a" ∉ delivered w 2).
Proof.
  exists (world_after candidate_before_pairing).
  repeat (split; [vm_compute; reflexivity|]).
  assert (delivered (world_after candidate_before_pairing) 2 = []) as E
    by (vm_compute; reflexivity).
  rewrite E. apply not_elem_of_nil.
Qed.

(** C3, as the code has it.  The relay neither buffers nor forwards a
    CANDIDATE (a frame with [type] candidate and no [role] string): the turn
    of the loop leaves the slots as they are and no transition, then or
    later, writes a frame to a connection; with both slots occupied the
    frame is printed, with a slot empty the worker of its connection
    returns.  Candidates are buffered in the web client: those that arrive
    while no remote description is set are appended to
    [pendingRemoteCandidates], and when [setRemoteDescription] of the offer
    is fulfilled [handleOffer], running to its call of [createAnswer], hands
    the buffered candidates to [addIceCandidate] in their order of arrival,
    each once, whatever the outcome of each call, and leaves the queue
    empty.  With an empty queue that flush hands over nothing and leaves the
    queue untouched. *)
Theorem C3_candidates_are_buffered_by_the_client_only
    (parse : string → option Json.value) (ls : list label) (w : world)
    (c : conn) (msg : string)
    (st : WebClient.client) (cs : list WebClient.candidate) (sdp v : string)
    (os : list WebClient.outcome) :
  run parse ls initial = Some w →
  threads w !! c = Some at_read →
  type_of parse msg = Some "candidate" →
  role_of parse msg = None →
  WebClient.well_formed st →
  WebClient.remoteDescription st = None →
  length os = length (WebClient.queue st ++ cs) →
  (∃ w', frame parse c msg w = Some w'
         ∧ srv w' = srv w
         ∧ (if everybody (srv w)
            then threads w' !! c = Some at_read
                 ∧ out w' = out w ++ [Stdout msg]
            else threads w' !! c = Some returned
                 ∧ out w' = out w ++ [Stdout msg; Stderr not_a_string])
         ∧ ∀ ls' w'', run parse ls' w' = Some w'' → ∀ c', delivered w'' c' = [])
  ∧ (∃ st', WebClient.run
              (map WebClient.Candidate cs
               ++ WebClient.Offer sdp
               :: WebClient.Settled (length (WebClient.tasks st))
                    (WebClient.fulfilled v)
               :: map (WebClient.Settled (length (WebClient.tasks st))) os) st
            = Some st'
            ∧ WebClient.added st'
              = WebClient.added st ++ WebClient.queue st ++ cs
            ∧ WebClient.queue st' = []
            ∧ WebClient.remoteDescription st' = Some sdp)
  ∧ (WebClient.queue st = [] →
     ∃ st', WebClient.run
              [WebClient.Offer sdp;
               WebClient.Settled (length (WebClient.tasks st))
                 (WebClient.fulfilled v)] st
            = Some st'
            ∧ WebClient.added st' = WebClient.added st
            ∧ WebClient.arrays st' = WebClient.arrays st
            ∧ WebClient.pendingRemoteCandidates st'
              = WebClient.pendingRemoteCandidates st).
Proof.
  intros Hrun Hc Ht Hr Hwf Hrd Hos. split; [|split].
  - assert (∃ w', frame parse c msg w = Some w' ∧ srv w' = srv w
                  ∧ (if everybody (srv w)
                     then threads w' !! c = Some at_read
                          ∧ out w' = out w ++ [Stdout msg]
                     else threads w' !! c = Some returned
                          ∧ out w' = out w ++ [Stdout msg; Stderr not_a_string]))
      as (w' & Hf & Hs & Hcase).
    { destruct (everybody (srv w)) eqn:He.
      - rewrite frame_paired by done.
        eexists; split; [reflexivity|].
        split; [done|]. split; [apply lookup_insert_eq | done].
      - rewrite (frame_raises parse c msg not_a_string) by
          eauto using log_participants_no_role.
        eexists; split; [reflexivity|].
        split; [done|]. split; [apply lookup_insert_eq | done]. }
    exists w'. repeat split; try done.
    intros ls' w'' Hrun' c'.
    apply (reachable_delivered parse). eauto using reachable_frame_run.
  - destruct (client_buffers_all cs st Hrd Hwf)
      as (st1 & Hrun1 & Hq1 & Ha1 & Ht1 & Hrd1 & Hwf1).
    rewrite <- Hq1 in Hos.
    destruct (flush_after_offer sdp v os st1 Hwf1 Hos)
      as (st' & Hrun' & Ha' & Hq' & Hrd' & Ht').
    exists st'. rewrite client_run_app, Hrun1; cbn [mbind option_bind].
    rewrite <- Ht1, Hrun', Ha', Hq', Hrd', Ha1, Hq1. done.
  - intros Hq.
    destruct (flush_of_empty_queue sdp v st Hq) as (st' & H1 & H2 & H3 & H4 & _).
    eauto.
Qed.

Lemma C3_witness :
  let w := world_after (connect 1 ++ send 1 (join_text "viewer")) in
  let msg := candidate_text "a" in
  let st := WebClient.started in
  let cs := [Json.Str "a"; Json.Str "b"] in
  let os := [WebClient.fulfilled "sdp"; WebClient.rejected] in
  (∃ w', frame Json.parse 1 msg w = Some w'
         ∧ srv w' = srv w
         ∧ (if everybody (srv w)
            then threads w' !! 1 = Some at_read
                 ∧ out w' = out w ++ [Stdout msg]
            else threads w' !! 1 = Some returned
                 ∧ out w' = out w ++ [Stdout msg; Stderr not_a_string])
         ∧ ∀ ls' w'', run Json.parse ls' w' = Some w'' →
                      ∀ c', delivered w'' c' = [])
  ∧ (∃ st', WebClient.run
              (map WebClient.Candidate cs
               ++ WebClient.Offer "v=0..."
               :: WebClient.Settled (length (WebClient.tasks st))
                    (WebClient.fulfilled "sdp")
               :: map (WebClient.Settled (length (WebClient.tasks st))) os) st
            = Some st'
            ∧ WebClient.added st'
              = WebClient.added st ++ WebClient.queue st ++ cs
            ∧ WebClient.queue st' = []
            ∧ WebClient.remoteDescription st' = Some "v=0...")
  ∧ (WebClient.queue st = [] →
     ∃ st', WebClient.run
              [WebClient.Offer "v=0...";
               WebClient.Settled (length (WebClient.tasks st))
                 (WebClient.fulfilled "sdp")] st
            = Some st'
            ∧ WebClient.added st' = WebClient.added st
            ∧ WebClient.arrays st' = WebClient.arrays st
            ∧ WebClient.pendingRemoteCandidates st'
              = WebClient.pendingRemoteCandidates st).
Proof.
  apply (C3_candidates_are_buffered_by_the_client_only Json.parse
           (connect 1 ++ send 1 (join_text "viewer")));
    [vm_compute; reflexivity | vm_compute; reflexivity
    | vm_compute; reflexivity | vm_compute; reflexivity
    | by eexists | reflexivity | reflexivity].
Defined.

(** The order the flush does not keep: a candidate that arrives while the
    for-of of [handleOffer] is suspended is handed to [addIceCandidate] at
    once, ahead of the buffered candidates not yet reached. *)
Example live_candidate_overtakes_the_flush :
  WebClient.added
  <$> WebClient.run
        [WebClient.Candidate (Json.Str "a"); WebClient.Candidate (Json.Str "b");
         WebClient.Offer "v=0..."; WebClient.Settled 0 (WebClient.fulfilled "sdp");
         WebClient.Candidate (Json.Str "c");
         WebClient.Settled 0 (WebClient.fulfilled "sdp");
         WebClient.Settled 0 (WebClient.fulfilled "sdp")]
        WebClient.started
  = Some [Json.Str "a"; Json.Str "c"; Json.Str "b"].
Proof. reflexivity. Qed.

(** ** Further properties of the server *)

Section ServerInvariants.

Variable parse : string → option Json.value.

(** [log_participants] stores the socket it is given and nothing else. *)
Lemma log_participants_inv buf socket s s' lines :
  log_participants parse buf socket s = inr (s', lines) →
  addr s' = addr s ∧ port s' = port s
  ∧ (s' = s
     ∨ (role_of parse buf = Some "sender"
        ∧ sender s' = set_ws socket (sender s) ∧ viewer s' = viewer s)
     ∨ (role_of parse buf = Some "viewer"
        ∧ viewer s' = set_ws socket (viewer s) ∧ sender s' = sender s)).
Proof.
  rewrite log_participants_role.
  destruct (parse buf) as [v|]; [|done].
  destruct (Json.as_object v); [|done].
  destruct (role_of parse buf) as [role|]; [|done].
  destruct (String.eqb role "sender") eqn:E1;
    [|destruct (String.eqb role "viewer") eqn:E2]; intros; simplify_eq; cbn.
  - apply String.eqb_eq in E1 as ->. auto 10.
  - apply String.eqb_eq in E2 as ->. auto 10.
  - auto.
Qed.

(** A transition changes the server only in [log_participants]. *)
Lemma step_srv l w w' :
  step parse l w = Some w' →
  srv w' = srv w
  ∨ ∃ c msg lines, l = Log c ∧ threads w !! c = Some (at_log msg)
      ∧ log_participants parse msg (Some c) (srv w) = inr (srv w', lines).
Proof.
  intros H.
  destruct l as [c|c|c|c msg|c|c|c]; unfold step, launch, client_worker in H;
    destruct (threads w !! c) as [[]|] eqn:Hc; simplify_eq; auto.
  - destruct (everybody (srv w)); simplify_eq; auto.
  - destruct (log_participants parse msg (Some c) (srv w))
      as [e|[s' lines]] eqn:Hl; simplify_eq; cbn; eauto 10.
Qed.

Lemma step_slot_stays_occupied l w w' r :
  step parse l w = Some w' →
  empty (slot r (srv w)) = false → empty (slot r (srv w')) = false.
Proof.
  intros H Hr.
  destruct (step_srv _ _ _ H) as [->|(c & msg & lines & _ & _ & Hl)]; [done|].
  destruct (log_participants_inv _ _ _ _ _ Hl)
    as (_ & _ & [->|[(_ & Hs & Hv)|(_ & Hv & Hs)]]); [done| |];
    destruct r; cbn in *; rewrite ?Hs, ?Hv; done.
Qed.

End ServerInvariants.

(** X1.  No execution empties a slot: a slot that holds a connection holds
    one ever after, whatever is received and whichever connections close,
    and once [everybody()] is true it stays true. *)
Theorem slots_are_never_emptied
    (parse : string → option Json.value) (ls : list label) (w w' : world) :
  run parse ls w = Some w' →
  (∀ r, empty (slot r (srv w)) = false → empty (slot r (srv w')) = false)
  ∧ (everybody (srv w) = true → everybody (srv w') = true).
Proof.
  revert w; induction ls as [|l ls IH]; intros w H; cbn in H.
  - by simplify_eq.
  - destruct (step parse l w) as [w1|] eqn:H1; [|done]; cbn in H.
    destruct (IH _ H) as [IH1 IH2]. split.
    + intros r Hr. eauto using step_slot_stays_occupied.
    + intros He. eauto using step_everybody.
Qed.

Lemma slots_are_never_emptied_witness :
  let w := world_after (connect 1 ++ send 1 (join_text "sender")) in
  let w' := world_after (connect 1 ++ send 1 (join_text "sender") ++ [Closed 1]) in
  (∀ r, empty (slot r (srv w)) = false → empty (slot r (srv w')) = false)
  ∧ (everybody (srv w) = true → everybody (srv w') = true).
Proof.
  apply (slots_are_never_emptied Json.parse [Closed 1]).
  vm_compute; reflexivity.
Defined.



(** X3.  A slot changes in one way only: the worker of a connection calls
    [log_participants] on a frame whose [role] is the name of that slot, and
    the slot then holds that connection.  Such a transition leaves the other
    slot, the address and the port as they are. *)
Theorem slot_changes_only_by_a_role_frame
    (parse : string → option Json.value) (l : label) (w w' : world) :
  step parse l w = Some w' →
  srv w' ≠ srv w →
  ∃ c msg r,
    l = Log c
    ∧ threads w !! c = Some (at_log msg)
    ∧ role_of parse msg = Some (role_name r)
    ∧ ws (slot r (srv w')) = Some c
    ∧ slot (counterpart r) (srv w') = slot (counterpart r) (srv w)
    ∧ addr (srv w') = addr (srv w) ∧ port (srv w') = port (srv w).
Proof.
  intros H Hne.
  destruct (step_srv _ _ _ _ H) as [E|(c & msg & lines & -> & Hc & Hl)]; [done|].
  destruct (log_participants_inv _ _ _ _ _ _ Hl)
    as (Ha & Hp & [E|[(Hr & Hs & Hv)|(Hr & Hv & Hs)]]); [done| |].
  - exists c, msg, SENDER. cbn. rewrite Hs. auto 10.
  - exists c, msg, VIEWER. cbn. rewrite Hv. auto 10.
Qed.

Lemma slot_changes_only_by_a_role_frame_witness :
  let w := world_after (connect 1 ++ [Recv 1 (join_text "sender"); Check 1]) in
  let w' := world_after (connect 1 ++ send 1 (join_text "sender")) in
  ∃ c msg r,
    Log 1 = Log c
    ∧ threads w !! c = Some (at_log msg)
    ∧ role_of Json.parse msg = Some (role_name r)
    ∧ ws (slot r (srv w')) = Some c
    ∧ slot (counterpart r) (srv w') = slot (counterpart r) (srv w)
    ∧ addr (srv w') = addr (srv w) ∧ port (srv w') = port (srv w).
Proof.
  apply (slot_changes_only_by_a_role_frame Json.parse (Log 1));
    [vm_compute; reflexivity | vm_compute; discriminate].
Defined.

(** X4.  [log_participants] is idempotent: when a call with a frame and a
    socket returns, a second call with the same frame and socket returns
    too, prints the same line and leaves the server as the first call left
    it. *)
Theorem log_participants_is_idempotent
    (parse : string → option Json.value) (buf : string)
    (socket : websocket_type) (s s' : server_t) (lines : list string) :
  log_participants parse buf socket s = inr (s', lines) →
  log_participants parse buf socket s' = inr (s', lines).
Proof.
  rewrite !log_participants_role.
  destruct (parse buf) as [v|]; [|done].
  destruct (Json.as_object v); [|done].
  destruct (role_of parse buf) as [role|]; [|done].
  destruct (String.eqb role "sender"); [|destruct (String.eqb role "viewer")];
    intros; by simplify_eq.
Qed.

Lemma log_participants_is_idempotent_witness :
  let s' := {| addr := "0.0.0.0"; port := 8080;
               sender := {| ws := Some 1 |}; viewer := {| ws := None |} |} in
  log_participants Json.parse (join_text "sender") (Some 1) s'
  = inr (s', ["Sender is logged"]).
Proof.
  apply (log_participants_is_idempotent Json.parse (join_text "sender")
           (Some 1) server_default).
  vm_compute; reflexivity.
Defined.

(** X5.  Registrations compose by role.  A frame with [role] sender and a
    frame with [role] viewer can be passed to [log_participants] in either
    order and leave the same server; of two frames with [role] sender the
    socket of the later call is the one the sender slot holds, and the
    viewer slot is untouched. *)
Theorem log_participants_composes_by_role
    (parse : string → option Json.value) (b1 b2 b3 : string)
    (c1 c2 c3 : websocket_type) (s : server_t) :
  role_of parse b1 = Some "sender" →
  role_of parse b2 = Some "viewer" →
  role_of parse b3 = Some "sender" →
  (∃ s1 s2 s12,
     log_participants parse b1 c1 s = inr (s1, ["Sender is logged"])
     ∧ log_participants parse b2 c2 s1 = inr (s12, ["Viewer is logged"])
     ∧ log_participants parse b2 c2 s = inr (s2, ["Viewer is logged"])
     ∧ log_participants parse b1 c1 s2 = inr (s12, ["Sender is logged"])
     ∧ ws (sender s12) = c1 ∧ ws (viewer s12) = c2)
  ∧ (∃ s1 s13,
       log_participants parse b1 c1 s = inr (s1, ["Sender is logged"])
       ∧ log_participants parse b3 c3 s1 = inr (s13, ["Sender is logged"])
       ∧ ws (sender s13) = c3 ∧ viewer s13 = viewer s).
Proof.
  intros H1 H2 H3. split.
  - eexists _, _, _.
    split; [by rewrite (log_participants_join parse b1 SENDER)|].
    split; [by rewrite (log_participants_join parse b2 VIEWER)|].
    split; [by rewrite (log_participants_join parse b2 VIEWER)|].
    split; [by rewrite (log_participants_join parse b1 SENDER)|]. done.
  - eexists _, _.
    split; [by rewrite (log_participants_join parse b1 SENDER)|].
    split; [by rewrite (log_participants_join parse b3 SENDER)|]. done.
Qed.

Lemma log_participants_composes_by_role_witness :
  let b1 := join_text "sender" in
  let b2 := join_text "viewer" in
  let b3 := ping_role_text "sender" in
  (∃ s1 s2 s12,
     log_participants Json.parse b1 (Some 1) server_default
     = inr (s1, ["Sender is logged"])
     ∧ log_participants Json.parse b2 (Some 2) s1 = inr (s12, ["Viewer is logged"])
     ∧ log_participants Json.parse b2 (Some 2) server_default
       = inr (s2, ["Viewer is logged"])
     ∧ log_participants Json.parse b1 (Some 1) s2 = inr (s12, ["Sender is logged"])
     ∧ ws (sender s12) = Some 1 ∧ ws (viewer s12) = Some 2)
  ∧ (∃ s1 s13,
       log_participants Json.parse b1 (Some 1) server_default
       = inr (s1, ["Sender is logged"])
       ∧ log_participants Json.parse b3 (Some 3) s1
         = inr (s13, ["Sender is logged"])
       ∧ ws (sender s13) = Some 3 ∧ viewer s13 = viewer server_default).
Proof.
  apply (log_participants_composes_by_role Json.parse (join_text "sender")
           (join_text "viewer") (ping_role_text "sender")
           (Some 1) (Some 2) (Some 3) server_default);
    vm_compute; reflexivity.
Defined.

(** X6.  [everybody()] does not need two peers.  A connection that sends a
    frame with [role] sender and then a frame with [role] viewer while both
    slots are empty ends up in both slots, and [everybody()] is true with
    that one connection. *)
Theorem one_connection_fills_both_slots
    (parse : string → option Json.value) (w : world) (c : conn)
    (b1 b2 : string) :
  threads w !! c = Some at_read →
  empty (sender (srv w)) = true →
  empty (viewer (srv w)) = true →
  role_of parse b1 = Some "sender" →
  role_of parse b2 = Some "viewer" →
  ∃ w1 w2, frame parse c b1 w = Some w1
           ∧ frame parse c b2 w1 = Some w2
           ∧ ws (sender (srv w2)) = Some c
           ∧ ws (viewer (srv w2)) = Some c
           ∧ everybody (srv w2) = true.
Proof.
  intros Hc Hs Hv H1 H2.
  assert (everybody (srv w) = false) as He by (unfold everybody; by rewrite Hs).
  rewrite frame_unpaired, (log_participants_join parse b1 SENDER) by done.
  eexists; eexists; split; [reflexivity|].
  rewrite frame_unpaired; cbn.
  - rewrite (log_participants_join parse b2 VIEWER) by done. cbn.
    split; [reflexivity|]. done.
  - apply lookup_insert_eq.
  - unfold everybody; cbn. by rewrite Hv.
Qed.

Lemma one_connection_fills_both_slots_witness :
  ∃ w1 w2, frame Json.parse 1 (join_text "sender") (world_after (connect 1))
           = Some w1
           ∧ frame Json.parse 1 (join_text "viewer") w1 = Some w2
           ∧ ws (sender (srv w2)) = Some 1
           ∧ ws (viewer (srv w2)) = Some 1
           ∧ everybody (srv w2) = true.
Proof.
  apply (one_connection_fills_both_slots Json.parse (world_after (connect 1)) 1
           (join_text "sender") (join_text "viewer"));
    vm_compute; reflexivity.
Defined.

(** X7.  Once both slots are occupied and no worker stands between its test
    of [everybody()] and [log_participants], the registry is frozen: no
    execution changes the server, the two occupants' streams stay alive
    whatever their peers do, and all the process does is print. *)
Theorem paired_registry_is_frozen
    (parse : string → option Json.value) (ls : list label) (w w' : world) :
  everybody (srv w) = true →
  settled w →
  run parse ls w = Some w' →
  srv w' = srv w
  ∧ (∀ c, slot_holds w c = true → stream_alive w' c = true)
  ∧ ∃ evs, out w' = out w ++ evs ∧ forallb is_print evs = true.
Proof.
  intros He Hq H.
  pose proof (run_settled parse ls w w' H He Hq) as Hs.
  split; [done|]. split; [|by eapply run_out].
  intros c Hc. unfold stream_alive, slot_holds in *.
  rewrite Hs, Hc. apply orb_true_r.
Qed.

Lemma paired_registry_is_frozen_witness :
  let w := world_after (connect 1 ++ send 1 (join_text "sender")
                        ++ connect 2 ++ send 2 (join_text "viewer")) in
  let w' := world_after (connect 1 ++ send 1 (join_text "sender")
                         ++ connect 2 ++ send 2 (join_text "viewer")
                         ++ [Closed 1; Recv 2 (join_text "sender"); Check 2]) in
  srv w' = srv w
  ∧ (∀ c, slot_holds w c = true → stream_alive w' c = true)
  ∧ ∃ evs, out w' = out w ++ evs ∧ forallb is_print evs = true.
Proof.
  apply (paired_registry_is_frozen Json.parse
           [Closed 1; Recv 2 (join_text "sender"); Check 2]).
  - vm_compute; reflexivity.
  - intros c msg. unfold world_after.
    replace (run Json.parse _ initial) with
      (Some {| srv := {| addr := "0.0.0.0"; port := 8080;
                         sender := {| ws := Some 1 |};
                         viewer := {| ws := Some 2 |} |};
               threads := <[2 := at_read]> (<[1 := at_read]> ∅);
               out := out (world_after
                             (connect 1 ++ send 1 (join_text "sender")
                              ++ connect 2 ++ send 2 (join_text "viewer"))) |})
      by (vm_compute; reflexivity).
    cbn. rewrite !lookup_insert.
    repeat case_decide; discriminate.
  - vm_compute; reflexivity.
Defined.

(** ** Further properties of the web client *)

Section ClientInvariants.

Import WebClient.

Lemma flush_next_keeps i a n st :
  remoteDescription (flush_next i a n st) = remoteDescription st
  ∧ sent (flush_next i a n st) = sent st.
Proof.
  unfold flush_next. by destruct (arrays st !! a ≫= (λ q, q !! n)).
Qed.

Lemma after_setRemoteDescription_sets i sdp st :
  remoteDescription (after_setRemoteDescription i sdp st) = Some sdp
  ∧ sent (after_setRemoteDescription i sdp st) = sent st.
Proof.
  unfold after_setRemoteDescription.
  destruct (0 <? length _)%nat; [|done].
  by rewrite (proj1 (flush_next_keeps _ _ _ _)), (proj2 (flush_next_keeps _ _ _ _)).
Qed.




Ltac ifs_lia :=
  repeat match goal with
         | |- context [if ?b then _ else _] => destruct b
         | H : context [if ?b then _ else _] |- _ => destruct b
         end;
  lia.

Lemma suspended_offers_app ts t :
  suspended_offers (ts ++ [t])
  = suspended_offers ts + (if in_handleOffer t then 1 else 0).
Proof. induction ts as [|t' ts IH]; cbn; [lia|]. rewrite IH. ifs_lia. Qed.

Lemma suspended_offers_insert ts i t t' :
  ts !! i = Some t →
  suspended_offers (<[i := t']> ts) + (if in_handleOffer t then 1 else 0)
  = suspended_offers ts + (if in_handleOffer t' then 1 else 0).
Proof.
  revert i; induction ts as [|t0 ts IH]; intros [|i] H; cbn in *; simplify_eq.
  - ifs_lia.
  - specialize (IH i H). unfold insert in *. ifs_lia.
Qed.

Lemma suspended_offers_delete ts i t :
  ts !! i = Some t →
  suspended_offers (delete i ts) + (if in_handleOffer t then 1 else 0)
  = suspended_offers ts.
Proof.
  revert i; induction ts as [|t0 ts IH]; intros [|i] H; cbn in *; simplify_eq.
  - ifs_lia.
  - specialize (IH i H). unfold delete in *. ifs_lia.
Qed.

(** Answers sent and calls of [handleOffer] still suspended, against the
    offers received. *)
Lemma client_step_answers l st st' :
  WebClient.step l st = Some st' →
  (length (sent st') + suspended_offers (tasks st')
   ≤ length (sent st) + suspended_offers (tasks st) + offers [l])%nat.
Proof.
  destruct l as [sdp|c|i o]; cbn; intros H; simplify_eq; cbn.
  - rewrite suspended_offers_app; cbn. ifs_lia.
  - unfold addRemoteCandidate. destruct (remoteDescription st); cbn; [|lia].
    rewrite suspended_offers_app; cbn. ifs_lia.
  - destruct (tasks st !! i) as [t|] eqn:Hi; [|done].
    pose proof (suspended_offers_delete _ _ _ Hi) as Hdel.
    assert (in_handleOffer t = true →
            ∀ a n, suspended_offers (tasks (flush_next i a n st))
                   = suspended_offers (tasks st)) as Hflush.
    { intros Ht a n.
      pose proof (suspended_offers_insert _ _ _ awaits_createAnswer Hi).
      pose proof (suspended_offers_insert _ _ _
                    (awaits_addIceCandidate a (S n)) Hi).
      unfold flush_next. destruct (arrays st !! a ≫= (λ q, q !! n));
        rewrite Ht in *; cbn in *; ifs_lia. }
    destruct t as [sdp|a n| |sdp|]; cbn in Hdel.
    + destruct o; simplify_eq; cbn; [|lia].
      rewrite (proj2 (after_setRemoteDescription_sets _ _ _)).
      unfold after_setRemoteDescription.
      destruct (0 <? length _)%nat.
      * pose proof (Hflush eq_refl (pendingRemoteCandidates st) 0) as E.
        unfold flush_next in *; cbn in *.
        destruct (arrays st !! pendingRemoteCandidates st ≫= (λ q, q !! 0));
          cbn in *; ifs_lia.
      * cbn. pose proof (suspended_offers_insert _ _ _ awaits_createAnswer Hi).
        cbn in *. ifs_lia.
    + simplify_eq.
      rewrite (proj2 (flush_next_keeps _ _ _ _)), (Hflush eq_refl). ifs_lia.
    + destruct o; simplify_eq; cbn; [|lia].
      pose proof (suspended_offers_insert _ _ _
                    (awaits_setLocalDescription value) Hi). cbn in *. ifs_lia.
    + destruct o; simplify_eq; cbn; [|lia].
      rewrite length_app; cbn. ifs_lia.
    + simplify_eq; cbn. ifs_lia.
Qed.

Lemma offers_cons l ls : offers (l :: ls) = offers [l] + offers ls.
Proof. by destruct l. Qed.

End ClientInvariants.



(** X9.  In every execution the client sends at most one answer for each
    offer it received: the number of answers sent never exceeds the number
    of offers, however the handlers interleave. *)
Theorem at_most_one_answer_per_offer
    (ls : list WebClient.label) (st : WebClient.client) :
  WebClient.run ls WebClient.started = Some st →
  (length (WebClient.sent st) ≤ offers ls)%nat.
Proof.
  assert (∀ ls st0 st, WebClient.run ls st0 = Some st →
            (length (WebClient.sent st) + suspended_offers (WebClient.tasks st)
             ≤ length (WebClient.sent st0)
               + suspended_offers (WebClient.tasks st0) + offers ls)%nat) as Hgen.
  { clear. induction ls as [|l ls IH]; intros st0 st H; cbn in H.
    - simplify_eq. cbn. lia.
    - destruct (WebClient.step l st0) as [st1|] eqn:H1; [|done]; cbn in H.
      pose proof (client_step_answers _ _ _ H1).
      pose proof (IH _ _ H). rewrite offers_cons. lia. }
  intros H. pose proof (Hgen _ _ _ H) as Hle. cbn in Hle. lia.
Qed.

Lemma at_most_one_answer_per_offer_witness :
  let ls := [WebClient.Offer "v=0..."; WebClient.Settled 0 (WebClient.fulfilled "sdp");
             WebClient.Settled 0 (WebClient.fulfilled "answer");
             WebClient.Settled 0 (WebClient.fulfilled "sdp")] in
  ∃ st, WebClient.run ls WebClient.started = Some st
        ∧ WebClient.sent st = ["answer"]
        ∧ (length (WebClient.sent st) ≤ offers ls)%nat.
Proof.
  eexists. split; [reflexivity|]. split; [reflexivity|].
  apply (at_most_one_answer_per_offer
           [WebClient.Offer "v=0..."; WebClient.Settled 0 (WebClient.fulfilled "sdp");
            WebClient.Settled 0 (WebClient.fulfilled "answer");
            WebClient.Settled 0 (WebClient.fulfilled "sdp")]).
  reflexivity.
Defined.

(** ** The entry point and the echo server *)

Example main_with_a_port :
  Main.main ["server"; "127.0.0.1"; "9000"] = inr server_default
  ∧ Main.main ["server"; "127.0.0.1"; " +9000/tcp"] = inr server_default
  ∧ Main.main ["server"; "127.0.0.1"; "http"] = inl Main.invalid_argument
  ∧ Main.main ["server"; "127.0.0.1"; "4294967296"] = inl Main.out_of_range
  ∧ Main.main ["server"; "9000"] = inr server_default.
Proof. vm_compute. repeat split. Qed.

(** X10.  [main] never uses its arguments.  Whatever the command line, the
    server it launches is the default one, on 0.0.0.0 and port 8080; and
    [main] fails to launch only when it has exactly two arguments and
    [std::stoi] raises on the second. *)
Theorem main_never_uses_its_arguments (argv : list string) :
  match Main.main argv with
  | inr s => s = server_default ∧ addr s = "0.0.0.0" ∧ port s = 8080%Z
  | inl e => length argv = 3 ∧ ∃ p, argv !! 2 = Some p ∧ Main.stoi p = inl e
  end.
Proof.
  unfold Main.main.
  destruct (length argv =? 3)%nat eqn:E; [|done].
  apply Nat.eqb_eq in E.
  destruct (lookup_lt_is_Some_2 argv 2) as [p Hp]; [lia|].
  rewrite Hp; cbn.
  destruct (Main.stoi p) as [e|v] eqn:Hs; [|done]. eauto.
Qed.

Section EchoFacts.

Import Echo.

Lemma serve_without_eof input :
  Eof ∉ input → all_written input →
  serve input = (map payload input, reading).
Proof.
  induction input as [|a input IH]; intros He Hw; [done|].
  apply not_elem_of_cons in He as [Ha He].
  assert (all_written input) as Hw'.
  { intros bytes Hin. apply (Hw bytes). by right. }
  destruct a as [bytes [|]| |]; cbn; rewrite ?IH by done; try done.
  destruct (Hw bytes). by left.
Qed.

Lemma serve_until_eof pre post :
  Eof ∉ pre → all_written pre →
  serve (pre ++ Eof :: post) = (map payload pre, at_eof).
Proof.
  induction pre as [|a pre IH]; intros He Hw; [done|].
  apply not_elem_of_cons in He as [Ha He].
  assert (all_written pre) as Hw'.
  { intros bytes Hin. apply (Hw bytes). by right. }
  destruct a as [bytes [|]| |]; cbn; rewrite ?IH by done; try done.
  destruct (Hw bytes). by left.
Qed.

End EchoFacts.

(** X11.  The echo server writes back what it reads.  On a connection whose
    writes succeed, the buffers written are the buffers read before the end
    of file, one write per read and in the same order, so the bytes sent
    back are the bytes received; a read error other than end of file gives
    an empty write and does not end the connection; what follows the end of
    file is not read. *)
Theorem echo_writes_back_what_it_read
    (pre post : list Echo.arrival) :
  Echo.Eof ∉ pre →
  Echo.all_written pre →
  Echo.serve (pre ++ Echo.Eof :: post) = (map Echo.payload pre, Echo.at_eof)
  ∧ concat (fst (Echo.serve (pre ++ Echo.Eof :: post)))
    = concat (map Echo.payload pre).
Proof.
  intros He Hw. by rewrite serve_until_eof.
Qed.

Lemma echo_writes_back_what_it_read_witness :
  let pre := [Echo.Data ["a"; "b"]%char true; Echo.Fault;
              Echo.Data ["c"]%char true] in
  let post := [Echo.Data ["d"]%char true] in
  Echo.serve (pre ++ Echo.Eof :: post) = (map Echo.payload pre, Echo.at_eof)
  ∧ concat (fst (Echo.serve (pre ++ Echo.Eof :: post)))
    = concat (map Echo.payload pre).
Proof.
  apply (echo_writes_back_what_it_read
           [Echo.Data ["a"; "b"]%char true; Echo.Fault;
            Echo.Data ["c"]%char true]
           [Echo.Data ["d"]%char true]).
  - intros H. repeat (apply elem_of_cons in H as [H|H]; [discriminate|]).
    by apply elem_of_nil in H.
  - intros bytes H.
    repeat (apply elem_of_cons in H as [H|H]; [discriminate|]).
    by apply elem_of_nil in H.
Defined.

(** X12.  The echo server serves one connection at a time.  While a
    connection has not ended its stream, no later connection is served,
    whatever it sends; when a connection ends its stream, the next one is
    served in turn. *)
Theorem echo_serves_one_connection_at_a_time
    (input pre post : list Echo.arrival) (rest : list (list Echo.arrival)) :
  Echo.all_written input → Echo.Eof ∉ input →
  Echo.all_written pre → Echo.Eof ∉ pre →
  Echo.launch (input :: rest) = ([map Echo.payload input], false)
  ∧ Echo.launch ((pre ++ Echo.Eof :: post) :: rest)
    = (map Echo.payload pre :: fst (Echo.launch rest), snd (Echo.launch rest)).
Proof.
  intros Hw He Hw' He'. split; cbn.
  - by rewrite serve_without_eof.
  - rewrite serve_until_eof by done. by destruct (Echo.launch rest).
Qed.

Lemma echo_serves_one_connection_at_a_time_witness :
  let input := [Echo.Data ["a"]%char true] in
  let pre := [Echo.Data ["b"]%char true; Echo.Fault] in
  let post := [Echo.Data ["c"]%char true] in
  let rest := [[Echo.Data ["d"]%char true; Echo.Eof]] in
  Echo.launch (input :: rest) = ([map Echo.payload input], false)
  ∧ Echo.launch ((pre ++ Echo.Eof :: post) :: rest)
    = (map Echo.payload pre :: fst (Echo.launch rest), snd (Echo.launch rest)).
Proof.
  apply (echo_serves_one_connection_at_a_time
           [Echo.Data ["a"]%char true]
           [Echo.Data ["b"]%char true; Echo.Fault]
           [Echo.Data ["c"]%char true]
           [[Echo.Data ["d"]%char true; Echo.Eof]]);
    [intros bytes H | intros H | intros bytes H | intros H];
    repeat (apply elem_of_cons in H as [H|H]; [discriminate|]);
    by apply elem_of_nil in H.
Defined.

(** ** The page around the web client *)

Section PageFacts.

Import Page.

Lemma start_ok p : page_ok p → page_ok (start p).
Proof.
  intros Hp. pose proof Hp as (H1 & H2 & H3 & H4 & H5). unfold start.
  destruct (videoControlsStart p) eqn:Hv; [done|].
  destruct H3 as (Hpc & Hws & Hsrc).
  unfold page_ok; cbn. split_and!; try done.
  - eexists _, _, _. split_and!; try done.
    + by apply list_lookup_middle.
    + done.
    + done.
    + rewrite list_lookup_middle; eauto.
  - intros k c H Hne.
    apply lookup_snoc_Some in H as [[Hlt H]|[-> <-]]; [|done].
    apply (H4 _ _ H). by rewrite Hpc.
  - intros j s H Hne.
    apply lookup_snoc_Some in H as [[Hlt H]|[-> <-]]; [|done].
    apply (H5 _ _ H). by rewrite Hws.
Qed.

Lemma stop_ok p : page_ok p → page_ok (stop p).
Proof.
  intros Hp. pose proof Hp as (H1 & H2 & H3 & H4 & H5). unfold stop.
  destruct (videoControlsStart p) eqn:Hv; cbn; [|done].
  destruct H3 as (k & j & c & Hpc & Hws & Hk & Hc & Hh & Hj).
  rewrite Hpc, Hws. unfold page_ok; cbn. split_and!; try done.
  - intros k' c' H _.
    rewrite list_lookup_alter in H. case_decide; subst.
    + rewrite Hk in H. by simplify_eq/=.
    + apply (H4 _ _ H). congruence.
  - intros j' s H _.
    rewrite list_lookup_alter in H. case_decide; subst.
    + destruct Hj as [s0 Hs0]. rewrite Hs0 in H. simplify_eq/=.
      destruct (readyState s0); auto.
    + apply (H5 _ _ H). congruence.
Qed.

(** [send] and the state of a socket only touch the sockets, and keep which
    sockets exist and which are closing or closed. *)
Lemma sockets_ok p ss :
  page_ok p →
  (∀ j, is_Some (sockets p !! j) → is_Some (ss !! j)) →
  (∀ j s, ss !! j = Some s → websocketSignal p ≠ Some j →
          ∃ s0, sockets p !! j = Some s0
                ∧ (readyState s = readyState s0 ∨ readyState s = CLOSED)) →
  page_ok (set_sockets ss p).
Proof.
  intros (H1 & H2 & H3 & H4 & H5) Hin Hout.
  unfold page_ok; cbn. split_and!; try done.
  - destruct (videoControlsStart p); [|done].
    destruct H3 as (k & j & c & Hpc & Hws & Hk & Hc & Hh & Hj).
    eexists _, _, _. eauto 10.
  - intros j s Hs Hne.
    destruct (Hout _ _ Hs Hne) as (s0 & Hs0 & [E|E]); [|by right].
    rewrite E. eauto.
Qed.

Lemma send_set_sockets f p :
  send f p
  = set_sockets
      (match websocketSignal p with
       | Some j =>
           alter (λ s, match readyState s with
                       | OPEN => {| readyState := OPEN; frames := frames s ++ [f] |}
                       | _ => s
                       end) j (sockets p)
       | None => sockets p
       end) p.
Proof. unfold send, set_sockets. by destruct p as [? ? ? ? ? []]. Qed.

Lemma send_ok f p : page_ok p → page_ok (send f p).
Proof.
  intros Hp. rewrite send_set_sockets. apply sockets_ok; [done| |].
  - intros j [s Hs]. destruct (websocketSignal p) as [j0|]; [|by eexists].
    rewrite list_lookup_alter. case_decide; subst; rewrite ?Hs; by eexists.
  - intros j s Hs Hne. destruct (websocketSignal p) as [j0|]; [|eauto].
    rewrite list_lookup_alter_ne in Hs by congruence. eauto.
Qed.

Lemma set_ready_ok r j p :
  page_ok p → (r = CLOSED ∨ websocketSignal p = Some j) →
  page_ok (set_sockets (alter (set_ready r) j (sockets p)) p).
Proof.
  intros Hp Hr. apply sockets_ok; [done| |].
  - intros j' [s Hs]. rewrite list_lookup_alter.
    case_decide; subst; rewrite ?Hs; by eexists.
  - intros j' s Hs Hne. rewrite list_lookup_alter in Hs.
    case_decide; subst; [|eauto].
    destruct (sockets p !! j') as [s0|] eqn:Hs0; simplify_eq/=.
    destruct Hr as [->|]; [eauto|done].
Qed.

Lemma step_page_ok e p p' : step e p = Some p' → page_ok p → page_ok p'.
Proof.
  intros H Hp. destruct e as [| |j|j|k|k c|k stream|sdp]; cbn in H.
  - simplify_eq. by apply start_ok.
  - simplify_eq. by apply stop_ok.
  - destruct (sockets p !! j) as [[[] fs]|] eqn:Hj; simplify_eq.
    apply send_ok, set_ready_ok; [done|]. right.
    destruct Hp as (_ & _ & _ & _ & H5).
    destruct (websocketSignal p) as [j0|] eqn:Hws.
    + destruct (decide (j0 = j)) as [->|Hne]; [done|].
      destruct (H5 _ _ Hj) as [E|E]; [congruence|done..].
    + destruct (H5 _ _ Hj) as [E|E]; done.
  - destruct (sockets p !! j) as [s|] eqn:Hj; simplify_eq.
    apply set_ready_ok; auto.
  - destruct (connections p !! k) as [c|] eqn:Hk; [|done].
    destruct (rtc_closed c) eqn:Hc; [done|].
    assert (peerConnection p = Some k) as Hpc.
    { destruct Hp as (_ & _ & _ & H4 & _).
      destruct (decide (peerConnection p = Some k)) as [|Hne]; [done|].
      destruct (H4 _ _ Hk Hne). congruence. }
    set (p1 := {| videoControlsStart := videoControlsStart p;
                  startBtn_disabled := startBtn_disabled p;
                  stopBtn_disabled := stopBtn_disabled p;
                  srcObject := srcObject p;
                  peerConnection := peerConnection p;
                  websocketSignal := websocketSignal p;
                  connections := _; sockets := sockets p |}) in *.
    assert (page_ok p1) as Hp1.
    { destruct Hp as (H1 & H2 & H3 & H4 & H5).
      unfold page_ok; cbn. split_and!; try done.
      - destruct (videoControlsStart p); [|done].
        destruct H3 as (k0 & j & c0 & Hpc0 & Hws & Hk0 & Hc0 & Hh & Hj).
        assert (k0 = k) as -> by congruence. simplify_eq.
        exists k, j, {| rtc_closed := rtc_closed c; handlers := handlers c;
                        failed := true |}.
        split_and!; try done. by rewrite list_lookup_alter_eq, Hk.
      - intros k' c' Hk' Hne.
        rewrite list_lookup_alter in Hk'. case_decide; subst; [congruence|].
        by apply (H4 _ _ Hk'). }
    match type of H with
    | match ?x with _ => _ end = _ => destruct x as [c'|]
    end; [|by simplify_eq].
    destruct (failed c'); simplify_eq; [by apply stop_ok|done].
  - destruct (connections p !! k) as [[[] [] ?]|]; simplify_eq.
    by apply send_ok.
  - destruct (connections p !! k) as [[[] [] ?]|] eqn:Hk; simplify_eq.
    destruct Hp as (H1 & H2 & H3 & H4 & H5).
    unfold page_ok; cbn. split_and!; try done.
    destruct (videoControlsStart p); [done|].
    destruct H3 as (Hpc & _).
    destruct (H4 _ _ Hk); [by rewrite Hpc|done].
  - simplify_eq. by apply send_ok.
Qed.

Lemma send_sockets_ok f p :
  f ≠ join_viewer → all_sockets_ok p → all_sockets_ok (send f p).
Proof.
  intros Hf Hp j s Hs. unfold send in Hs.
  destruct (websocketSignal p) as [j0|]; [|by apply (Hp j)]. cbn in Hs.
  rewrite list_lookup_alter in Hs. case_decide; subst; [|by apply (Hp j)].
  destruct (sockets p !! j) as [s0|] eqn:Hs0; simplify_eq/=.
  pose proof (Hp _ _ Hs0) as Hok.
  destruct (readyState s0) eqn:Hr; try done.
  destruct Hok as (Hj & Hc & Ho).
  split_and!; cbn; try done; [|by destruct (frames s0)].
  destruct Hj as [E|(fs & E & Hfs)]; [by destruct Ho|].
  right. exists (fs ++ [f]). rewrite E. split; [done|].
  intros [?|[?|?%elem_of_nil]%elem_of_cons]%elem_of_app; congruence.
Qed.

Lemma step_sockets_ok e p p' :
  step e p = Some p' → page_ok p → all_sockets_ok p → all_sockets_ok p'.
Proof.
  intros H Hok Hp. destruct e as [| |j|j|k|k c|k stream|sdp]; cbn in H.
  - simplify_eq. unfold start.
    destruct (videoControlsStart p); [done|]. intros j s Hs; cbn in Hs.
    apply lookup_snoc_Some in Hs as [[_ Hs]|[_ <-]]; [by apply (Hp j)|].
    split_and!; cbn; try done. by left.
  - simplify_eq. unfold stop.
    destruct (videoControlsStart p); cbn; [|done]. intros j s Hs; cbn in Hs.
    destruct (websocketSignal p) as [j0|]; [|by apply (Hp j)].
    rewrite list_lookup_alter in Hs. case_decide; subst; [|by apply (Hp j)].
    destruct (sockets p !! j) as [s0|] eqn:Hs0; simplify_eq/=.
    destruct (Hp _ _ Hs0) as (Hj & Hc & Ho).
    split_and!; cbn; try done; by destruct (readyState s0).
  - destruct (sockets p !! j) as [[[] fs]|] eqn:Hj; simplify_eq.
    assert (websocketSignal p = Some j) as Hws.
    { destruct Hok as (_ & _ & _ & _ & H5).
      destruct (decide (websocketSignal p = Some j)) as [|Hne]; [done|].
      by destruct (H5 _ _ Hj Hne). }
    destruct (Hp _ _ Hj) as (_ & Hc & _). cbn in Hc.
    specialize (Hc eq_refl) as ->.
    intros j' s Hs. unfold send in Hs; cbn in Hs. rewrite Hws in Hs; cbn in Hs.
    rewrite !list_lookup_alter in Hs. case_decide; subst; [|by apply (Hp j')].
    rewrite Hj in Hs. case_decide; [|done]. simplify_eq/=.
    split_and!; cbn; try done. right. exists []. split; [done|].
    apply not_elem_of_nil.
  - destruct (sockets p !! j) as [s0|] eqn:Hj; simplify_eq.
    intros j' s Hs; cbn in Hs.
    rewrite list_lookup_alter in Hs. case_decide; subst; [|by apply (Hp j')].
    rewrite Hj in Hs. simplify_eq/=.
    destruct (Hp _ _ Hj) as (Hjf & _ & _). split_and!; cbn; done.
  - destruct (connections p !! k) as [c|] eqn:Hk; [|done].
    destruct (rtc_closed c); [done|].
    match type of H with
    | match ?x with _ => _ end = _ => destruct x as [c'|]
    end; [|by simplify_eq].
    destruct (failed c'); simplify_eq; [|done].
    unfold stop; cbn.
    destruct (videoControlsStart p); cbn; [|done]. intros j s Hs; cbn in Hs.
    destruct (websocketSignal p) as [j0|]; [|by apply (Hp j)].
    rewrite list_lookup_alter in Hs. case_decide; subst; [|by apply (Hp j)].
    destruct (sockets p !! j) as [s0|] eqn:Hs0; simplify_eq/=.
    destruct (Hp _ _ Hs0) as (Hj & Hc & Ho).
    split_and!; cbn; try done; by destruct (readyState s0).
  - destruct (connections p !! k) as [[[] [] ?]|]; simplify_eq.
    by apply send_sockets_ok.
  - destruct (connections p !! k) as [[[] [] ?]|]; by simplify_eq.
  - simplify_eq. by apply send_sockets_ok.
Qed.

Lemma run_page_ok es p p' :
  run es p = Some p' → page_ok p → all_sockets_ok p →
  page_ok p' ∧ all_sockets_ok p'.
Proof.
  revert p; induction es as [|e es IH]; intros p H Hok Hs; cbn in H.
  - by simplify_eq.
  - destruct (step e p) as [p1|] eqn:H1; [|done]; cbn in H.
    eauto using step_page_ok, step_sockets_ok.
Qed.

Lemma loaded_ok : page_ok loaded ∧ all_sockets_ok loaded.
Proof. split; [by unfold page_ok; cbn; split_and!|]. by intros j s Hs. Qed.

End PageFacts.

(** X13.  Whatever the user and the browser do after the page is loaded,
    the controls follow the session: exactly one of the two buttons is
    enabled, [peerConnection] and [websocketSignal] name an open connection
    and a socket exactly while [videoControlsStart] is true, and every
    object the variables no longer name is closed.  In particular, when the
    session is stopped no peer connection is open, no socket is open or
    connecting, and the video element shows nothing. *)
Theorem page_controls_follow_the_session
    (es : list Page.event) (p : Page.page) :
  Page.run es Page.loaded = Some p →
  Page.page_ok p
  ∧ Page.startBtn_disabled p = negb (Page.stopBtn_disabled p)
  ∧ (Page.videoControlsStart p = false →
     Page.srcObject p = None
     ∧ (∀ k c, Page.connections p !! k = Some c → Page.rtc_closed c = true)
     ∧ (∀ j s, Page.sockets p !! j = Some s →
               Page.readyState s = Page.CLOSING
               ∨ Page.readyState s = Page.CLOSED)).
Proof.
  intros H.
  destruct loaded_ok as [Hl1 Hl2].
  destruct (run_page_ok _ _ _ H Hl1 Hl2) as [Hok _].
  split; [done|]. destruct Hok as (H1 & H2 & H3 & H4 & H5).
  split; [by rewrite H1, H2, negb_involutive|].
  intros Hv. rewrite Hv in H3. destruct H3 as (Hpc & Hws & Hsrc).
  split_and!; [done| |].
  - intros k c Hk. apply (H4 _ _ Hk). by rewrite Hpc.
  - intros j s Hs. apply (H5 _ _ Hs). by rewrite Hws.
Qed.

Lemma page_controls_follow_the_session_witness :
  let es := [Page.ClickStart; Page.Opened 0; Page.ClickStart;
             Page.IceCandidate 0 (Json.Str "a"); Page.ClickStop;
             Page.ClickStart; Page.StateFailed 1] in
  ∃ p, Page.run es Page.loaded = Some p
       ∧ Page.page_ok p
       ∧ Page.startBtn_disabled p = negb (Page.stopBtn_disabled p)
       ∧ (Page.videoControlsStart p = false →
          Page.srcObject p = None
          ∧ (∀ k c, Page.connections p !! k = Some c → Page.rtc_closed c = true)
          ∧ (∀ j s, Page.sockets p !! j = Some s →
                    Page.readyState s = Page.CLOSING
                    ∨ Page.readyState s = Page.CLOSED)).
Proof.
  eexists. split; [vm_compute; reflexivity|].
  eapply (page_controls_follow_the_session
            [Page.ClickStart; Page.Opened 0; Page.ClickStart;
             Page.IceCandidate 0 (Json.Str "a"); Page.ClickStop;
             Page.ClickStart; Page.StateFailed 1]).
  vm_compute; reflexivity.
Defined.

(** X14.  On every socket the client opens, the join is the first frame it
    sends and it is sent once: the frames of a socket are none, or the join
    followed by candidates and answers; a socket that is connecting has sent
    nothing and a socket that is open has sent its join. *)
Theorem join_is_the_first_frame_on_every_socket
    (es : list Page.event) (p : Page.page) (j : nat) (s : Page.socket) :
  Page.run es Page.loaded = Some p →
  Page.sockets p !! j = Some s →
  Page.join_first s
  ∧ (Page.readyState s = Page.CONNECTING → Page.frames s = [])
  ∧ (Page.readyState s = Page.OPEN →
     ∃ fs, Page.frames s = Page.join_viewer :: fs ∧ Page.join_viewer ∉ fs).
Proof.
  intros H Hs.
  destruct loaded_ok as [Hl1 Hl2].
  destruct (run_page_ok _ _ _ H Hl1 Hl2) as [_ Hall].
  destruct (Hall _ _ Hs) as (Hj & Hc & Ho).
  split_and!; try done.
  intros Hr. destruct Hj as [E|Hfs]; [by destruct (Ho Hr)|done].
Qed.

Lemma join_is_the_first_frame_on_every_socket_witness :
  let es := [Page.ClickStart; Page.IceCandidate 0 (Json.Str "early");
             Page.Opened 0; Page.IceCandidate 0 (Json.Str "a");
             Page.AnswerReady "sdp"] in
  ∃ p s, Page.run es Page.loaded = Some p
         ∧ Page.sockets p !! 0 = Some s
         ∧ Page.frames s = [Page.join_viewer; Page.candidate_frame (Json.Str "a");
                            Page.answer_frame "sdp"]
         ∧ Page.join_first s
         ∧ (Page.readyState s = Page.CONNECTING → Page.frames s = [])
         ∧ (Page.readyState s = Page.OPEN →
            ∃ fs, Page.frames s = Page.join_viewer :: fs
                  ∧ Page.join_viewer ∉ fs).
Proof.
  eexists _, _. split; [vm_compute; reflexivity|].
  split; [vm_compute; reflexivity|]. split; [reflexivity|].
  eapply (join_is_the_first_frame_on_every_socket
            [Page.ClickStart; Page.IceCandidate 0 (Json.Str "early");
             Page.Opened 0; Page.IceCandidate 0 (Json.Str "a");
             Page.AnswerReady "sdp"] _ 0); vm_compute; reflexivity.
Defined.

(** X15.  A local ICE candidate found while the socket is not open is lost:
    [onicecandidate] sends nothing and keeps nothing, the page is as it was
    before the event. *)
Theorem early_local_candidates_are_dropped
    (p p' : Page.page) (k : nat) (c : Json.value) :
  Page.step (Page.IceCandidate k c) p = Some p' →
  (∀ j s, Page.websocketSignal p = Some j → Page.sockets p !! j = Some s →
          Page.readyState s ≠ Page.OPEN) →
  p' = p.
Proof.
  intros H Hno. cbn in H.
  destruct (Page.connections p !! k) as [[[] [] ?]|]; simplify_eq.
  unfold Page.send. destruct (Page.websocketSignal p) as [j|] eqn:Hws; [|done].
  assert (alter (λ s, match Page.readyState s with
                      | Page.OPEN =>
                          {| Page.readyState := Page.OPEN;
                             Page.frames :=
                               Page.frames s ++ [Page.candidate_frame c] |}
                      | _ => s
                      end) j (Page.sockets p) = Page.sockets p) as Hid.
  { apply list_eq. intros i. rewrite list_lookup_alter.
    case_decide; subst; [|done].
    destruct (Page.sockets p !! i) as [s|] eqn:Hs; [|done]. cbn.
    specialize (Hno _ _ eq_refl Hs). destruct (Page.readyState s); congruence. }
  cbn. rewrite Hid. destruct p; cbn in *. by rewrite Hws.
Qed.

Lemma early_local_candidates_are_dropped_witness :
  ∃ p', Page.step (Page.IceCandidate 0 (Json.Str "early"))
          (Page.start Page.loaded) = Some p'
        ∧ p' = Page.start Page.loaded.
Proof.
  eexists. split; [vm_compute; reflexivity|].
  apply (early_local_candidates_are_dropped (Page.start Page.loaded) _ 0
           (Json.Str "early")); [vm_compute; reflexivity|].
  intros j s Hj Hs. cbn in Hj. simplify_eq. cbn in Hs. simplify_eq. done.
Defined.

(** X16.  [start()] and [stop()] are idempotent: a second [start()] makes no
    second peer connection or socket, a second [stop()] changes nothing,
    and each leaves [videoControlsStart] as its name says. *)
Theorem start_and_stop_are_idempotent (p : Page.page) :
  Page.start (Page.start p) = Page.start p
  ∧ Page.stop (Page.stop p) = Page.stop p
  ∧ Page.videoControlsStart (Page.start p) = true
  ∧ Page.videoControlsStart (Page.stop p) = false.
Proof.
  unfold Page.start, Page.stop.
  destruct (Page.videoControlsStart p) eqn:Hv; cbn; rewrite ?Hv; cbn; done.
Qed.
